(** * FlashToken: fixed-prefix and append-only tokenization caches

    A shallow embedding of [flashtoken/fixed_prefix.py] and
    [flashtoken/append_only_piece.py], followed by the properties the
    specification states about them.

    The BPE encoder and the compiled pre-tokenization regex are opaque
    collaborators of the caches; they are modelled by a record of total
    functions ([Encoding.t]).  Python exceptions are modelled by the
    [Raise] constructor of [result]. *)

From Stdlib Require Import Ascii String.
From Stdlib Require Import List ZArith Lia Bool Arith.
Import ListNotations.

Set Implicit Arguments.

(** ** Data model *)

(** A Python [str] is a sequence of characters; tokens are Python ints.
    Nothing below depends on the alphabet beyond the equality test of
    [startswith]. *)
Definition char := ascii.
Definition text := list char.
Definition token := Z.

(** A regex match object, as far as the caches look at it:
    [(m.start(), m.end())], offsets into the string that was searched. *)
Definition span := (nat * nat)%type.

Definition str (s : string) : text := list_ascii_of_string s.

Inductive exn : Type :=
| ValueError (msg : string)
| IndexError.

Inductive result (A : Type) : Type :=
| Ok (a : A)
| Raise (e : exn).
Arguments Ok {A} a.
Arguments Raise {A} e.

(** The two error kinds of the specification are the two [ValueError]s of
    the source. *)
Definition InvalidArgument : exn :=
  ValueError "backtrack_pieces must be >= 1".
Definition StableSplitMismatch : exn :=
  ValueError "Stable token prefix does not decode to a string prefix of the input text.".

(** ** Python sequence operations used by the source *)

Module Py.

(** [s.startswith(p)] *)
Fixpoint startswith (s p : text) {struct p} : bool :=
  match p, s with
  | [], _ => true
  | _ :: _, [] => false
  | a :: p', b :: s' => Ascii.eqb a b && startswith s' p'
  end.

(** [l[i]] for a Python int [i]: negative indices count from the end, an
    index out of range raises [IndexError] ([None] here). *)
Definition getitem {A : Type} (l : list A) (i : Z) : option A :=
  let n := Z.of_nat (length l) in
  if (i <? 0)%Z
  then (if (i + n <? 0)%Z then None else nth_error l (Z.to_nat (i + n)))
  else nth_error l (Z.to_nat i).

(** A slice bound: negative bounds count from the end, and the bound is
    clamped to [0 .. len]. *)
Definition bound (len : nat) (i : Z) : nat :=
  if (i <? 0)%Z
  then Z.to_nat (Z.max 0 (i + Z.of_nat len))
  else Nat.min (Z.to_nat i) len.

(** [l[i:]] and [l[:i]] *)
Definition slice_from {A : Type} (l : list A) (i : Z) : list A :=
  skipn (bound (length l) i) l.
Definition slice_to {A : Type} (l : list A) (i : Z) : list A :=
  firstn (bound (length l) i) l.

(** [del l[-n:]] for [n > 0]: the slice starts at [max 0 (len - n)]. *)
Definition del_last {A : Type} (n : nat) (l : list A) : list A :=
  firstn (length l - n) l.

(** [m.group(0)]: the matched text is the searched string between the
    match's offsets. *)
Definition group0 (searched : text) (m : span) : text :=
  firstn (snd m - fst m) (skipn (fst m) searched).

End Py.

(** ** The encoder *)

Module Encoding.

(** What the caches use of a [tiktoken]-style encoding object.
    [finditer] is [regex.compile(encoding._pat_str).finditer]: the ordered
    non-overlapping matches of the pre-tokenization pattern over a
    string. *)
Record t : Type := Build {
  finditer : text -> list span;
  _encode_single_piece : text -> list token;
  encode_ordinary : text -> list token;
  encode_with_unstable : text -> list token * list (list token);
  decode : list token -> text
}.

End Encoding.

(** ** fixed_prefix.py *)

Record StableSplit : Type := {
  stable_tokens : list token;
  stable_text : text;
  unstable_text : text
}.

Definition stable_split_for_text (encoding : Encoding.t) (txt : text)
  : result StableSplit :=
  let '(stable_tokens, _completions) :=
    Encoding.encode_with_unstable encoding txt in
  let stable_text := Encoding.decode encoding stable_tokens in
  if negb (Py.startswith txt stable_text)
  then Raise StableSplitMismatch
  else Ok {| stable_tokens := stable_tokens;
             stable_text := stable_text;
             unstable_text := skipn (length stable_text) txt |}.

Module FixedPrefixTokenCache.

Record t : Type := Build {
  _encoding : Encoding.t;
  _prefix : text;
  _split : StableSplit
}.

(** [__init__] *)
Definition init (encoding : Encoding.t) (prefix : text) : result t :=
  match stable_split_for_text encoding prefix with
  | Raise e => Raise e
  | Ok split =>
      Ok {| _encoding := encoding; _prefix := prefix; _split := split |}
  end.

Definition prefix (self : t) : text := _prefix self.

Definition stable_prefix_token_count (self : t) : nat :=
  length (stable_tokens (_split self)).

Definition unstable_prefix_char_count (self : t) : nat :=
  length (unstable_text (_split self)).

Definition encode_ordinary_tail (self : t) (suffix : text) : list token :=
  let tail := unstable_text (_split self) ++ suffix in
  Encoding.encode_ordinary (_encoding self) tail.

Definition encode_ordinary (self : t) (suffix : text) : list token :=
  stable_tokens (_split self) ++ encode_ordinary_tail self suffix.

End FixedPrefixTokenCache.

(** ** append_only_piece.py *)

Record TokenDelta : Type := {
  rollback_tokens : nat;
  tokens_to_append : list token
}.

Module AppendOnlyPieceTokenCache.

(** The mutable fields of the object.  The encoding and the compiled
    pattern never change after construction; they are the [encoding]
    argument of the methods below. *)
Record t : Type := Build {
  _backtrack_pieces : Z;
  _text : text;
  _pieces : list span;
  _piece_tokens : list (list token);
  _tokens : list token
}.

Section Methods.

Variable encoding : Encoding.t.

(** The three lists a pass over the regex matches fills in. *)
Definition acc : Type :=
  (list span * list (list token) * list token)%type.

(** One iteration of the [for m in self._pattern.finditer(...)] loops.
    [searched] is the string given to [finditer]; [offset] is what the
    loop adds to the match offsets ([0] in [reset], [reprocess_start]
    in [append_ordinary]). *)
Definition loop_body (searched : text) (offset : nat) (a : acc) (m : span)
  : acc :=
  let '(pieces, piece_tokens_list, tokens) := a in
  let piece_text := Py.group0 searched m in
  let piece_tokens := Encoding._encode_single_piece encoding piece_text in
  (pieces ++ [(offset + fst m, offset + snd m)],
   piece_tokens_list ++ [piece_tokens],
   tokens ++ piece_tokens).

Definition loop (searched : text) (offset : nat) : acc :=
  fold_left (loop_body searched offset)
            (Encoding.finditer encoding searched)
            ([], [], []).

Definition reset (self : t) (txt : text) : t :=
  let '(pieces, piece_tokens, tokens) := loop txt 0 in
  {| _backtrack_pieces := _backtrack_pieces self;
     _text := txt;
     _pieces := pieces;
     _piece_tokens := piece_tokens;
     _tokens := tokens |}.

(** [__init__]: the fields are set to their empty values, then
    [reset(initial_text)] runs. *)
Definition init (initial_text : text) (backtrack_pieces : Z) : result t :=
  if (backtrack_pieces <? 1)%Z
  then Raise (ValueError "backtrack_pieces must be >= 1")
  else
    let self := {| _backtrack_pieces := backtrack_pieces;
                   _text := [];
                   _pieces := [];
                   _piece_tokens := [];
                   _tokens := [] |} in
    Ok (reset self initial_text).

Definition append_ordinary (self : t) (delta : text)
  : result (t * TokenDelta) :=
  match delta with
  | [] => Ok (self, {| rollback_tokens := 0; tokens_to_append := [] |})
  | _ :: _ =>
    let prev_piece_count := length (_pieces self) in
    let prev_token_count := length (_tokens self) in
    let text1 := _text self ++ delta in
    if prev_piece_count =? 0 then
      let self' :=
        reset {| _backtrack_pieces := _backtrack_pieces self;
                 _text := text1;
                 _pieces := _pieces self;
                 _piece_tokens := _piece_tokens self;
                 _tokens := _tokens self |} text1 in
      Ok (self', {| rollback_tokens := prev_token_count;
                    tokens_to_append := _tokens self' |})
    else
      let b := Z.min (_backtrack_pieces self) (Z.of_nat prev_piece_count) in
      let start_piece_index := (Z.of_nat prev_piece_count - b)%Z in
      match Py.getitem (_pieces self) start_piece_index with
      | None => Raise IndexError
      | Some (reprocess_start, _) =>
        let old_tail_token_count :=
          fold_left (fun count toks => count + length toks)
                    (Py.slice_from (_piece_tokens self) start_piece_index)
                    0 in
        let rollback := old_tail_token_count in
        let tokens1 :=
          if rollback =? 0 then _tokens self
          else Py.del_last rollback (_tokens self) in
        let tail_text := skipn reprocess_start text1 in
        let '(new_pieces, new_piece_tokens, tokens_to_append) :=
          loop tail_text reprocess_start in
        Ok ({| _backtrack_pieces := _backtrack_pieces self;
               _text := text1;
               _pieces :=
                 Py.slice_to (_pieces self) start_piece_index ++ new_pieces;
               _piece_tokens :=
                 Py.slice_to (_piece_tokens self) start_piece_index
                 ++ new_piece_tokens;
               _tokens := tokens1 ++ tokens_to_append |},
            {| rollback_tokens := rollback;
               tokens_to_append := tokens_to_append |})
      end
  end.

End Methods.

(** The read-only properties. *)
Definition text (self : t) : list char := _text self.
Definition tokens (self : t) : list token := _tokens self.
Definition backtrack_pieces (self : t) : Z := _backtrack_pieces self.

End AppendOnlyPieceTokenCache.

Module Cache := AppendOnlyPieceTokenCache.

(** ** Sequences of public calls *)

(** The states of an [AppendOnlyPieceTokenCache] built with
    [backtrack_pieces = k]: what the constructor returns, closed under
    [reset] and under every [append_ordinary] that returns. *)
Inductive reachable (encoding : Encoding.t) (k : Z) : Cache.t -> Prop :=
| reach_init : forall initial_text c,
    Cache.init encoding initial_text k = Ok c ->
    reachable encoding k c
| reach_reset : forall c txt,
    reachable encoding k c ->
    reachable encoding k (Cache.reset encoding c txt)
| reach_append : forall c delta c' td,
    reachable encoding k c ->
    Cache.append_ordinary encoding c delta = Ok (c', td) ->
    reachable encoding k c'.

(** [for d in deltas: cache.append_ordinary(d)], collecting the deltas. *)
Fixpoint appends (encoding : Encoding.t) (c : Cache.t) (deltas : list text)
  : result (Cache.t * list TokenDelta) :=
  match deltas with
  | [] => Ok (c, [])
  | d :: deltas' =>
    match Cache.append_ordinary encoding c d with
    | Raise e => Raise e
    | Ok (c1, td) =>
      match appends encoding c1 deltas' with
      | Raise e => Raise e
      | Ok (c2, tds) => Ok (c2, td :: tds)
      end
    end
  end.

(** What an integrator does with a [TokenDelta] (specification, 4.5): drop
    the last [rollback_tokens] entries of its token stream, then extend it
    with [tokens_to_append]. *)
Definition apply_delta (stream : list token) (td : TokenDelta) : list token :=
  firstn (length stream - rollback_tokens td) stream ++ tokens_to_append td.

Definition apply_deltas (stream : list token) (tds : list TokenDelta)
  : list token :=
  fold_left apply_delta tds stream.

(** ** The invariants and assumptions of the specification *)

Definition is_prefix {A : Type} (p l : list A) : Prop :=
  exists rest, l = p ++ rest.

(** The last [n] elements of a list. *)
Definition last_n {A : Type} (n : nat) (l : list A) : list A :=
  skipn (length l - n) l.

Definition token_count (pts : list (list token)) : nat :=
  list_sum (map (@length token) pts).

(** (P1) .. (P4) of the data model. *)
Definition P1 (c : Cache.t) : Prop :=
  Cache._tokens c = concat (Cache._piece_tokens c).
Definition P2 (encoding : Encoding.t) (c : Cache.t) : Prop :=
  Cache._pieces c = Encoding.finditer encoding (Cache._text c).
Definition P3 (encoding : Encoding.t) (c : Cache.t) : Prop :=
  Cache._tokens c = Encoding.encode_ordinary encoding (Cache._text c).
Definition P4 (c : Cache.t) : Prop :=
  length (Cache._pieces c) = length (Cache._piece_tokens c).

(** Tokens of the matches [ms] found in [searched], one list per match. *)
Definition encode_matches (encoding : Encoding.t) (searched : text)
  (ms : list span) : list (list token) :=
  map (fun m => Encoding._encode_single_piece encoding (Py.group0 searched m))
      ms.

(** The state a cold pass over [txt] produces (what [reset(txt)] leaves). *)
Definition cold_state (encoding : Encoding.t) (k : Z) (txt : text) : Cache.t :=
  let pieces := Encoding.finditer encoding txt in
  {| Cache._backtrack_pieces := k;
     Cache._text := txt;
     Cache._pieces := pieces;
     Cache._piece_tokens := encode_matches encoding txt pieces;
     Cache._tokens := concat (encode_matches encoding txt pieces) |}.

(** Adapter contract for [encode_single_piece]: a cold tokenization is the
    concatenation of the encodings of the regex matches, in order. *)
Definition piece_contract (encoding : Encoding.t) : Prop :=
  forall txt,
    Encoding.encode_ordinary encoding txt =
    concat (encode_matches encoding txt (Encoding.finditer encoding txt)).

(** What a regex engine guarantees about its matches: they end inside the
    string that was searched. *)
Definition matches_in_range (encoding : Encoding.t) : Prop :=
  forall txt m, In m (Encoding.finditer encoding txt) -> snd m <= length txt.

Definition shift (offset : nat) (ms : list span) : list span :=
  map (fun m => (offset + fst m, offset + snd m)) ms.

(** The backtrack assumption for [backtrack_pieces = k]: whenever a
    non-empty [delta] is appended to a text [txt] that has pieces, a cold run
    of the regex over [txt ++ delta] keeps the pieces of [txt] before the
    piece the hot path restarts from, and from the start of that piece on it
    agrees with a run of the regex over the slice of the new text that
    begins there. *)
Definition backtrack_assumption (encoding : Encoding.t) (k : Z) : Prop :=
  forall (txt delta : text) (i reprocess_start e : nat),
    delta <> [] ->
    let pieces := Encoding.finditer encoding txt in
    Z.of_nat i =
      (Z.of_nat (length pieces) - Z.min k (Z.of_nat (length pieces)))%Z ->
    nth_error pieces i = Some (reprocess_start, e) ->
    Encoding.finditer encoding (txt ++ delta) =
    firstn i pieces
    ++ shift reprocess_start
         (Encoding.finditer encoding (skipn reprocess_start (txt ++ delta))).

(** The guarantee of [encode_with_unstable] as the adapter contract words
    it: the stable tokens are a prefix of the cold tokenization of every
    right-extension. *)
Definition stable_prefix_guarantee (encoding : Encoding.t) : Prop :=
  forall txt ext,
    is_prefix (fst (Encoding.encode_with_unstable encoding txt))
              (Encoding.encode_ordinary encoding (txt ++ ext)).

(** The guarantee the fixed-prefix cache relies on: after the stable
    tokens, the cold tokenization of a right-extension continues with the
    cold tokenization of the characters the stable tokens do not cover. *)
Definition stable_split_guarantee (encoding : Encoding.t) : Prop :=
  forall txt ext,
    let st := fst (Encoding.encode_with_unstable encoding txt) in
    Encoding.encode_ordinary encoding (txt ++ ext) =
    st ++ Encoding.encode_ordinary encoding
            (skipn (length (Encoding.decode encoding st)) (txt ++ ext)).

(** ** Concrete encoders *)

Definition code (c : char) : token := Z.of_N (N_of_ascii c).
Definition uncode (z : token) : char := ascii_of_N (Z.to_N z).

(** Cold tokenization of an encoder that splits by [finditer] and encodes
    each match with [esp]. *)
Definition by_pieces (finditer : text -> list span) (esp : text -> list token)
  (txt : text) : list token :=
  concat (map (fun m => esp (Py.group0 txt m)) (finditer txt)).

(** A byte-level vocabulary with one merged token, 256, for the piece [w]. *)
Definition merged_piece (w piece : text) : list token :=
  if list_eq_dec ascii_dec piece w then [256%Z] else map code piece.
Definition merged_decode (w : text) (toks : list token) : text :=
  flat_map (fun z => if (z =? 256)%Z then w else [uncode z]) toks.

Module DotEnc.

(** Pattern [(?s).]: every character is a piece; byte-level tokens.  The
    stable tokens of a text are those of all its characters but the
    last. *)
Definition finditer (txt : text) : list span :=
  map (fun i => (i, S i)) (seq 0 (length txt)).

Definition enc : Encoding.t :=
  {| Encoding.finditer := finditer;
     Encoding._encode_single_piece := map code;
     Encoding.encode_ordinary := map code;
     Encoding.encode_with_unstable :=
       fun txt => (removelast (map code txt), []);
     Encoding.decode := map uncode |}.

End DotEnc.

Module LookbehindEnc.

Definition is_char (x : string) (c : char) : bool :=
  match str x with
  | [y] => Ascii.eqb c y
  | _ => false
  end.

(** Pattern [(?<!a)bc|(?s).]: [bc] is one piece unless an [a] precedes
    it; every other character is a piece of its own.  [prev_a] tells
    whether the character before [pos] is an [a]. *)
Fixpoint scan (prev_a : bool) (pos : nat) (txt : text) : list span :=
  match txt with
  | [] => []
  | c :: r =>
    match r with
    | c2 :: r2 =>
      if negb prev_a && is_char "b" c && is_char "c" c2
      then (pos, pos + 2) :: scan false (pos + 2) r2
      else (pos, pos + 1) :: scan (is_char "a" c) (pos + 1) r
    | [] => [(pos, pos + 1)]
    end
  end.

Definition finditer (txt : text) : list span := scan false 0 txt.

(** The stable tokens are conservative: the token of a leading [a] that
    is followed by a [b], nothing otherwise. *)
Definition encode_with_unstable (txt : text)
  : list token * list (list token) :=
  match txt with
  | a :: b :: _ =>
    if is_char "a" a && is_char "b" b then ([code a], []) else ([], [])
  | _ => ([], [])
  end.

Definition enc : Encoding.t :=
  {| Encoding.finditer := finditer;
     Encoding._encode_single_piece := merged_piece (str "bc");
     Encoding.encode_ordinary := by_pieces finditer (merged_piece (str "bc"));
     Encoding.encode_with_unstable := encode_with_unstable;
     Encoding.decode := merged_decode (str "bc") |}.

End LookbehindEnc.

Module AltEnc.

(** Length of the first literal of [alts] that [txt] starts with, [0]
    when there is none. *)
Fixpoint match_alts (alts : list text) (txt : text) : nat :=
  match alts with
  | [] => 0
  | w :: alts' =>
    if Py.startswith txt w then length w else match_alts alts' txt
  end.

(** [finditer] for an alternation of non-empty literals
    [w1|w2|...]: at each position the first literal that matches is
    taken and the scan resumes after it; a position where none matches is
    skipped.  [skip] counts the characters still inside the last match. *)
Fixpoint scan (alts : list text) (skip pos : nat) (txt : text) : list span :=
  match txt with
  | [] => []
  | _ :: r =>
    match skip with
    | S n => scan alts n (S pos) r
    | 0 =>
      match match_alts alts txt with
      | S n => (pos, pos + S n) :: scan alts n (S pos) r
      | 0 => scan alts 0 (S pos) r
      end
    end
  end.

(** Pattern [abcd|a|b|c|d]. *)
Definition alts : list text :=
  [str "abcd"; str "a"; str "b"; str "c"; str "d"].

Definition finditer (txt : text) : list span := scan alts 0 0 txt.

Definition enc : Encoding.t :=
  {| Encoding.finditer := finditer;
     Encoding._encode_single_piece := merged_piece (str "abcd");
     Encoding.encode_ordinary :=
       by_pieces finditer (merged_piece (str "abcd"));
     Encoding.encode_with_unstable := fun _ => ([], []);
     Encoding.decode := merged_decode (str "abcd") |}.

End AltEnc.

(** ** Well-formed matches and pieces *)

(** Spans listed from left to right without overlap, none starting before
    [lo]. *)
Fixpoint ordered_from (lo : nat) (ms : list span) : Prop :=
  match ms with
  | [] => True
  | m :: ms' => lo <= fst m /\ fst m <= snd m /\ ordered_from (snd m) ms'
  end.

(** What a regex engine guarantees about [finditer]: the matches come from
    left to right, do not overlap, and lie inside the searched string. *)
Definition matches_ordered (encoding : Encoding.t) : Prop :=
  forall txt,
    ordered_from 0 (Encoding.finditer encoding txt) /\
    Forall (fun m => snd m <= length txt) (Encoding.finditer encoding txt).

(** The stored pieces are ordered, non-overlapping ranges of the stored
    text. *)
Definition pieces_ok (c : Cache.t) : Prop :=
  ordered_from 0 (Cache._pieces c) /\
  Forall (fun p => snd p <= length (Cache._text c)) (Cache._pieces c).

(** [piece_tokens[i]] is the encoding of the stored text between the
    offsets of [pieces[i]]. *)
Definition piece_tokens_ok (encoding : Encoding.t) (c : Cache.t) : Prop :=
  Cache._piece_tokens c =
  encode_matches encoding (Cache._text c) (Cache._pieces c).

Module AheadEnc.

(** Pattern [a(?!b)]: an [a] is a piece unless a [b] follows it; nothing
    else matches.  Byte-level tokens. *)
Fixpoint scan (pos : nat) (txt : text) : list span :=
  match txt with
  | [] => []
  | c :: r =>
    let followed_by_b :=
      match r with
      | c2 :: _ => LookbehindEnc.is_char "b" c2
      | [] => false
      end in
    if LookbehindEnc.is_char "a" c && negb followed_by_b
    then (pos, pos + 1) :: scan (pos + 1) r
    else scan (pos + 1) r
  end.

Definition finditer (txt : text) : list span := scan 0 txt.

Definition enc : Encoding.t :=
  {| Encoding.finditer := finditer;
     Encoding._encode_single_piece := map code;
     Encoding.encode_ordinary := by_pieces finditer (map code);
     Encoding.encode_with_unstable := fun _ => ([], []);
     Encoding.decode := map uncode |}.

End AheadEnc.

(** ** benchmark/run.py: the verification mode *)

Module Workloads.

Inductive TextDomain : Type :=
| english | chinese | mixed | code | markdown | json | emoji.

(** The generators of [workloads.py] draw from [random.Random]; they are
    parameters of the model, with the arguments in the order
    [make_text char_target seed domain header],
    [make_suffixes n char_target seed domain] and
    [make_chat_deltas turns chars_per_turn seed domain]. *)
Record t : Type := Build {
  make_text : Z -> Z -> TextDomain -> text -> text;
  make_suffixes : Z -> Z -> Z -> TextDomain -> list text;
  make_chat_deltas : Z -> Z -> Z -> TextDomain -> list text
}.

End Workloads.

(** [a != b] on token lists. *)
Definition tokens_differ (a b : list token) : bool :=
  if list_eq_dec Z.eq_dec a b then false else true.

Module VerifyFixed.

(** The keyword arguments of [verify_fixed_prefix_case]; the function
    returns them as the ["case"] entry of its result. *)
Record Case : Type := {
  domain : Workloads.TextDomain;
  prefix_chars : Z;
  suffix_chars : Z;
  n : Z;
  seed : Z
}.

(** An entry of ["verify_examples"]. *)
Record Example : Type := {
  i : nat;
  ex_prefix_chars : Z;
  ex_suffix_chars : Z;
  len_a : nat;
  len_b : nat;
  suffix_preview : text
}.

(** The dictionary the function returns. *)
Record Verdict : Type := {
  case_ : Case;
  verify_mismatches : nat;
  verify_examples : list Example;
  stable_prefix_tokens : nat;
  unstable_prefix_chars : nat
}.

Section Run.

Variable w : Workloads.t.
Variable enc : Encoding.t.

(** One iteration of [for i, suf in enumerate(suffixes)]; the state is
    [(mismatches, examples)]. *)
Definition loop_body (cs : Case) (prefix : text)
  (cache : FixedPrefixTokenCache.t)
  (st : nat * list Example) (isuf : nat * text) : nat * list Example :=
  let '(mismatches, examples) := st in
  let '(idx, suf) := isuf in
  let a := Encoding.encode_ordinary enc (prefix ++ suf) in
  let b := FixedPrefixTokenCache.encode_ordinary cache suf in
  if tokens_differ a b then
    (mismatches + 1,
     if length examples <? 5
     then examples ++ [ {| i := idx;
                           ex_prefix_chars := prefix_chars cs;
                           ex_suffix_chars := suffix_chars cs;
                           len_a := length a;
                           len_b := length b;
                           suffix_preview := firstn 120 suf |} ]
     else examples)
  else (mismatches, examples).

Definition verify_fixed_prefix_case (cs : Case) : result Verdict :=
  let prefix :=
    Workloads.make_text w (prefix_chars cs) (seed cs) (domain cs)
      (str "SYSTEM:") in
  let suffixes :=
    Workloads.make_suffixes w (n cs) (suffix_chars cs) (seed cs + 1)
      (domain cs) in
  match FixedPrefixTokenCache.init enc prefix with
  | Raise e => Raise e
  | Ok cache =>
    let '(mismatches, examples) :=
      fold_left (loop_body cs prefix cache)
                (combine (seq 0 (length suffixes)) suffixes)
                (0, []) in
    Ok {| case_ := cs;
          verify_mismatches := mismatches;
          verify_examples := examples;
          stable_prefix_tokens :=
            FixedPrefixTokenCache.stable_prefix_token_count cache;
          unstable_prefix_chars :=
            FixedPrefixTokenCache.unstable_prefix_char_count cache |}
  end.

End Run.

(** The comparison the loop makes for one suffix: [a != b]. *)
Definition disagrees (enc : Encoding.t) (prefix : text)
  (cache : FixedPrefixTokenCache.t) (suf : text) : bool :=
  tokens_differ (Encoding.encode_ordinary enc (prefix ++ suf))
                (FixedPrefixTokenCache.encode_ordinary cache suf).

(** An example describes a suffix of [suffixes] on which the cache and the
    cold tokenization disagree. *)
Definition records (enc : Encoding.t) (prefix : text)
  (cache : FixedPrefixTokenCache.t) (suffixes : list text) (ex : Example)
  : Prop :=
  exists suf,
    nth_error suffixes (i ex) = Some suf /\
    disagrees enc prefix cache suf = true /\
    suffix_preview ex = firstn 120 suf /\
    len_a ex = length (Encoding.encode_ordinary enc (prefix ++ suf)) /\
    len_b ex = length (FixedPrefixTokenCache.encode_ordinary cache suf).

End VerifyFixed.

Module VerifyAppend.

(** The keyword arguments of [verify_append_only_case]; the function
    returns them as the ["case"] entry of its result. *)
Record Case : Type := {
  domain : Workloads.TextDomain;
  initial_chars : Z;
  turns : Z;
  chars_per_turn : Z;
  backtrack_pieces : Z;
  seed : Z
}.

(** An entry of ["verify_examples"]. *)
Record Example : Type := {
  turn : nat;
  ex_rollback_tokens : nat;
  new_tokens : nat;
  baseline_len : nat;
  cached_len : nat;
  delta_preview : text
}.

(** The dictionary the function returns. *)
Record Verdict : Type := {
  case_ : Case;
  verify_mismatches : nat;
  verify_examples : list Example;
  rollback_tokens_total : nat;
  rollback_tokens_max : nat
}.

(** The local variables the loop of [verify_append_only_case] updates. *)
Record Locals : Type := {
  cache : Cache.t;
  cur_text : text;
  mismatches : nat;
  examples : list Example;
  rollback_max : nat;
  rollback_total : nat
}.

Section Run.

Variable w : Workloads.t.
Variable enc : Encoding.t.

(** [for i, d in enumerate(deltas)], from turn [idx] on. *)
Fixpoint loop (st : Locals) (idx : nat) (deltas : list text)
  : result Locals :=
  match deltas with
  | [] => Ok st
  | d :: deltas' =>
    let text1 := cur_text st ++ d in
    match Cache.append_ordinary enc (cache st) d with
    | Raise e => Raise e
    | Ok (cache1, delta) =>
      let rollback_total1 := rollback_total st + rollback_tokens delta in
      let rollback_max1 := Nat.max (rollback_max st) (rollback_tokens delta) in
      let baseline := Encoding.encode_ordinary enc text1 in
      let '(mismatches1, examples1) :=
        if tokens_differ baseline (Cache.tokens cache1) then
          (mismatches st + 1,
           if length (examples st) <? 3
           then examples st
                ++ [ {| turn := idx;
                        ex_rollback_tokens := rollback_tokens delta;
                        new_tokens := length (tokens_to_append delta);
                        baseline_len := length baseline;
                        cached_len := length (Cache.tokens cache1);
                        delta_preview := firstn 120 d |} ]
           else examples st)
        else (mismatches st, examples st) in
      loop {| cache := cache1;
              cur_text := text1;
              mismatches := mismatches1;
              examples := examples1;
              rollback_max := rollback_max1;
              rollback_total := rollback_total1 |}
           (S idx) deltas'
    end
  end.

Definition verify_append_only_case (cs : Case) : result Verdict :=
  let initial :=
    Workloads.make_text w (initial_chars cs) (seed cs) (domain cs)
      (str "SYSTEM:") in
  let deltas :=
    Workloads.make_chat_deltas w (turns cs) (chars_per_turn cs) (seed cs + 1)
      (domain cs) in
  match Cache.init enc initial (backtrack_pieces cs) with
  | Raise e => Raise e
  | Ok cache0 =>
    match loop {| cache := cache0;
                  cur_text := initial;
                  mismatches := 0;
                  examples := [];
                  rollback_max := 0;
                  rollback_total := 0 |} 0 deltas with
    | Raise e => Raise e
    | Ok st =>
      Ok {| case_ := cs;
            verify_mismatches := mismatches st;
            verify_examples := examples st;
            rollback_tokens_total := rollback_total st;
            rollback_tokens_max := rollback_max st |}
    end
  end.

End Run.

End VerifyAppend.

(** Whether the cache agrees with a cold tokenization after each of the
    appends of [deltas], starting from state [c] with text [txt]. *)
Fixpoint agrees_each_turn (encoding : Encoding.t) (c : Cache.t) (txt : text)
  (deltas : list text) : Prop :=
  match deltas with
  | [] => True
  | d :: deltas' =>
    match Cache.append_ordinary encoding c d with
    | Raise _ => False
    | Ok (c1, _) =>
      Cache._tokens c1 = Encoding.encode_ordinary encoding (txt ++ d) /\
      agrees_each_turn encoding c1 (txt ++ d) deltas'
    end
  end.

Module ToyWorkloads.

(** A deterministic stand-in for the random generators: texts are the
    header followed by [ab] repeated, cut to the requested length. *)
Definition make_text (char_target _seed : Z) (_domain : Workloads.TextDomain)
  (header : text) : text :=
  firstn (Z.to_nat char_target)
         (header ++ concat (repeat (str "ab ") (Z.to_nat char_target))).

Definition make_suffixes (n char_target seed : Z)
  (domain : Workloads.TextDomain) : list text :=
  map (fun _ => make_text char_target seed domain (str "User: "))
      (seq 0 (Z.to_nat n)).

Definition make_chat_deltas (turns chars_per_turn seed : Z)
  (domain : Workloads.TextDomain) : list text :=
  map (fun _ => make_text chars_per_turn seed domain (str "Turn: "))
      (seq 0 (Z.to_nat turns)).

Definition w : Workloads.t :=
  {| Workloads.make_text := make_text;
     Workloads.make_suffixes := make_suffixes;
     Workloads.make_chat_deltas := make_chat_deltas |}.

End ToyWorkloads.

(** * Properties *)

Unset Implicit Arguments.

(** ** Python sequence operations *)

Lemma startswith_is_prefix (s p : text) :
  Py.startswith s p = true <-> is_prefix p s.
Proof.
  revert s; induction p as [|a p IH]; intros s; simpl.
  - split; [intros _; exists s; reflexivity | reflexivity].
  - destruct s as [|b s].
    + split; [discriminate | intros [r Hr]; discriminate].
    + rewrite andb_true_iff, Ascii.eqb_eq, IH. split.
      * intros [-> [r ->]]. exists r. reflexivity.
      * intros [r Hr]. injection Hr as -> ->.
        split; [reflexivity | exists r; reflexivity].
Qed.

Lemma is_prefix_split (s p : text) :
  is_prefix p s -> p ++ skipn (length p) s = s /\ length p <= length s.
Proof.
  intros [r ->]. rewrite skipn_app, skipn_all, Nat.sub_diag, length_app.
  simpl. split; [reflexivity | lia].
Qed.

Lemma getitem_nat {A : Type} (l : list A) (i : nat) :
  Py.getitem l (Z.of_nat i) = nth_error l i.
Proof.
  unfold Py.getitem. destruct (Z.ltb_spec (Z.of_nat i) 0); [lia|].
  now rewrite Nat2Z.id.
Qed.

Lemma slice_from_nat {A : Type} (l : list A) (i : nat) :
  Py.slice_from l (Z.of_nat i) = skipn i l.
Proof.
  unfold Py.slice_from, Py.bound.
  destruct (Z.ltb_spec (Z.of_nat i) 0); [lia|]. rewrite Nat2Z.id.
  destruct (Nat.le_gt_cases i (length l)).
  - now rewrite Nat.min_l.
  - rewrite Nat.min_r by lia. now rewrite skipn_all, skipn_all2 by lia.
Qed.

Lemma slice_to_nat {A : Type} (l : list A) (i : nat) :
  Py.slice_to l (Z.of_nat i) = firstn i l.
Proof.
  unfold Py.slice_to, Py.bound.
  destruct (Z.ltb_spec (Z.of_nat i) 0); [lia|]. rewrite Nat2Z.id.
  destruct (Nat.le_gt_cases i (length l)).
  - now rewrite Nat.min_l.
  - rewrite Nat.min_r by lia. now rewrite firstn_all, firstn_all2 by lia.
Qed.

(** The text of a match found in a slice is the text of the shifted match
    in the whole string. *)
Lemma group0_shift (txt : text) (offset : nat) (m : span) :
  Py.group0 txt (offset + fst m, offset + snd m) =
  Py.group0 (skipn offset txt) m.
Proof.
  unfold Py.group0; simpl. rewrite skipn_skipn.
  f_equal; [lia | f_equal; lia].
Qed.

(** Appending text does not change the text of a match that ends inside
    the old string. *)
Lemma group0_app (txt delta : text) (m : span) :
  snd m <= length txt ->
  Py.group0 (txt ++ delta) m = Py.group0 txt m.
Proof.
  unfold Py.group0. destruct m as [s e]; simpl. intros He.
  destruct (Nat.le_gt_cases e s) as [Hes|Hes].
  - replace (e - s) with 0 by lia. reflexivity.
  - rewrite skipn_app. replace (s - length txt) with 0 by lia. simpl.
    rewrite firstn_app, length_skipn.
    replace (e - s - (length txt - s)) with 0 by lia.
    simpl. apply app_nil_r.
Qed.

Lemma fold_count (pts : list (list token)) (n : nat) :
  fold_left (fun count toks => count + length toks) pts n =
  n + token_count pts.
Proof.
  unfold token_count. revert n; induction pts as [|p pts IH]; intros n; simpl.
  - lia.
  - rewrite IH. lia.
Qed.

Lemma token_count_concat (pts : list (list token)) :
  token_count pts = length (concat pts).
Proof.
  unfold token_count. induction pts as [|p pts IH]; simpl.
  - reflexivity.
  - rewrite length_app, IH. reflexivity.
Qed.

Lemma shift_0 (ms : list span) : shift 0 ms = ms.
Proof.
  unfold shift. induction ms as [|[s e] ms IH]; simpl; [reflexivity|].
  f_equal. exact IH.
Qed.

(** ** The loops over the regex matches *)

Section CacheFacts.

Variable encoding : Encoding.t.

Local Abbreviation finditer := (Encoding.finditer encoding).

Lemma fold_loop_body (searched : text) (offset : nat) (ms : list span) :
  forall ps pts toks,
    fold_left (Cache.loop_body encoding searched offset) ms (ps, pts, toks) =
    (ps ++ shift offset ms,
     pts ++ encode_matches encoding searched ms,
     toks ++ concat (encode_matches encoding searched ms)).
Proof.
  induction ms as [|m ms IH]; intros ps pts toks; simpl.
  - now rewrite !app_nil_r.
  - rewrite IH, <- !app_assoc. reflexivity.
Qed.

Lemma loop_eq (searched : text) (offset : nat) :
  Cache.loop encoding searched offset =
  (shift offset (finditer searched),
   encode_matches encoding searched (finditer searched),
   concat (encode_matches encoding searched (finditer searched))).
Proof. unfold Cache.loop. now rewrite fold_loop_body. Qed.

Lemma reset_eq (c : Cache.t) (txt : text) :
  Cache.reset encoding c txt =
  {| Cache._backtrack_pieces := Cache._backtrack_pieces c;
     Cache._text := txt;
     Cache._pieces := finditer txt;
     Cache._piece_tokens := encode_matches encoding txt (finditer txt);
     Cache._tokens := concat (encode_matches encoding txt (finditer txt)) |}.
Proof. unfold Cache.reset. now rewrite loop_eq, shift_0. Qed.

Lemma init_eq (initial_text : text) (k : Z) :
  (1 <= k)%Z ->
  Cache.init encoding initial_text k =
  Ok {| Cache._backtrack_pieces := k;
        Cache._text := initial_text;
        Cache._pieces := finditer initial_text;
        Cache._piece_tokens :=
          encode_matches encoding initial_text (finditer initial_text);
        Cache._tokens :=
          concat (encode_matches encoding initial_text
                    (finditer initial_text)) |}.
Proof.
  intros Hk. unfold Cache.init.
  destruct (Z.ltb_spec k 1); [lia|]. now rewrite reset_eq.
Qed.

Lemma init_inv (initial_text : text) (k : Z) (c : Cache.t) :
  Cache.init encoding initial_text k = Ok c ->
  (1 <= k)%Z /\
  c = Cache.reset encoding
        {| Cache._backtrack_pieces := k; Cache._text := [];
           Cache._pieces := []; Cache._piece_tokens := [];
           Cache._tokens := [] |} initial_text.
Proof.
  unfold Cache.init. destruct (Z.ltb_spec k 1); [discriminate|].
  intros [= <-]. split; [lia | reflexivity].
Qed.

(** *** The three branches of [append_ordinary] *)

Lemma append_empty_delta (c : Cache.t) :
  Cache.append_ordinary encoding c [] =
  Ok (c, {| rollback_tokens := 0; tokens_to_append := [] |}).
Proof. reflexivity. Qed.

Lemma append_cold (c : Cache.t) (delta : text) :
  delta <> [] ->
  Cache._pieces c = [] ->
  let txt := Cache._text c ++ delta in
  let toks := concat (encode_matches encoding txt (finditer txt)) in
  Cache.append_ordinary encoding c delta =
  Ok ({| Cache._backtrack_pieces := Cache._backtrack_pieces c;
         Cache._text := txt;
         Cache._pieces := finditer txt;
         Cache._piece_tokens := encode_matches encoding txt (finditer txt);
         Cache._tokens := toks |},
      {| rollback_tokens := length (Cache._tokens c);
         tokens_to_append := toks |}).
Proof.
  intros Hd Hp. destruct delta as [|a delta]; [congruence|].
  unfold Cache.append_ordinary. rewrite Hp. simpl length.
  cbn [Nat.eqb]. rewrite reset_eq. reflexivity.
Qed.

(** The index of the piece the hot path restarts from. *)
Lemma start_piece_index_nat (k : Z) (n : nat) :
  (1 <= k)%Z -> 0 < n ->
  exists i, i < n /\
    (Z.of_nat n - Z.min k (Z.of_nat n))%Z = Z.of_nat i /\
    n - i = Z.to_nat (Z.min k (Z.of_nat n)).
Proof.
  intros Hk Hn.
  exists (Z.to_nat (Z.of_nat n - Z.min k (Z.of_nat n))). lia.
Qed.

Lemma append_hot (c : Cache.t) (delta : text) (i rs e : nat) :
  delta <> [] ->
  Cache._pieces c <> [] ->
  let n := length (Cache._pieces c) in
  (Z.of_nat n - Z.min (Cache._backtrack_pieces c) (Z.of_nat n))%Z
    = Z.of_nat i ->
  nth_error (Cache._pieces c) i = Some (rs, e) ->
  let txt := Cache._text c ++ delta in
  let tail := skipn rs txt in
  let rollback := token_count (skipn i (Cache._piece_tokens c)) in
  let new := encode_matches encoding tail (finditer tail) in
  Cache.append_ordinary encoding c delta =
  Ok ({| Cache._backtrack_pieces := Cache._backtrack_pieces c;
         Cache._text := txt;
         Cache._pieces :=
           firstn i (Cache._pieces c) ++ shift rs (finditer tail);
         Cache._piece_tokens := firstn i (Cache._piece_tokens c) ++ new;
         Cache._tokens :=
           (if rollback =? 0 then Cache._tokens c
            else Py.del_last rollback (Cache._tokens c)) ++ concat new |},
      {| rollback_tokens := rollback; tokens_to_append := concat new |}).
Proof.
  intros Hd Hp n Hi Hnth txt tail rollback new.
  destruct delta as [|a delta]; [congruence|].
  unfold Cache.append_ordinary.
  destruct (Nat.eqb_spec (length (Cache._pieces c)) 0) as [H0|_].
  { destruct (Cache._pieces c); [congruence | discriminate]. }
  fold n. rewrite Hi, getitem_nat, Hnth, slice_from_nat, !slice_to_nat.
  rewrite fold_count, loop_eq. reflexivity.
Qed.

(** With [backtrack_pieces >= 1] the piece to restart from exists. *)
Lemma hot_index (c : Cache.t) :
  (1 <= Cache._backtrack_pieces c)%Z ->
  Cache._pieces c <> [] ->
  exists i rs e,
    let n := length (Cache._pieces c) in
    i < n /\
    (Z.of_nat n - Z.min (Cache._backtrack_pieces c) (Z.of_nat n))%Z
      = Z.of_nat i /\
    n - i = Z.to_nat (Z.min (Cache._backtrack_pieces c) (Z.of_nat n)) /\
    nth_error (Cache._pieces c) i = Some (rs, e).
Proof.
  intros Hk Hp.
  assert (Hn : 0 < length (Cache._pieces c)).
  { destruct (Cache._pieces c); [congruence | simpl; lia]. }
  destruct (start_piece_index_nat _ _ Hk Hn) as (i & Hi & Hz & Hb).
  destruct (nth_error (Cache._pieces c) i) as [[rs e]|] eqn:Hnth.
  - exists i, rs, e. cbv zeta. auto.
  - apply nth_error_None in Hnth. lia.
Qed.

End CacheFacts.

(** ** Invariants of the append-only cache *)

Section CacheInvariants.

Variable encoding : Encoding.t.

Local Abbreviation finditer := (Encoding.finditer encoding).

Lemma reachable_backtrack (k : Z) (c : Cache.t) :
  reachable encoding k c -> (1 <= k)%Z /\ Cache._backtrack_pieces c = k.
Proof.
  induction 1 as [txt c Hinit | c txt _ IH | c delta c' td _ IH Happ].
  - apply init_inv in Hinit as [Hk ->]. rewrite reset_eq. auto.
  - rewrite reset_eq. exact IH.
  - destruct IH as [Hk Hc]. split; [exact Hk|].
    destruct delta as [|a delta].
    + rewrite append_empty_delta in Happ. now injection Happ as <- _.
    + destruct (Cache._pieces c) as [|p ps] eqn:Hp.
      * rewrite append_cold in Happ by (auto; discriminate).
        now injection Happ as <- _.
      * assert (Hne : Cache._pieces c <> []) by (rewrite Hp; discriminate).
        destruct (@hot_index c) as (i & rs & e & _ & Hz & _ & Hnth);
          [lia | exact Hne |].
        rewrite (@append_hot encoding c (a :: delta) i rs e) in Happ;
          [| discriminate | exact Hne | exact Hz | exact Hnth].
        now injection Happ as <- _.
Qed.

(** [append_ordinary] returns whenever [backtrack_pieces >= 1]. *)
Lemma append_returns (c : Cache.t) (delta : text) :
  (1 <= Cache._backtrack_pieces c)%Z ->
  exists c' td, Cache.append_ordinary encoding c delta = Ok (c', td).
Proof.
  intros Hk. destruct delta as [|a delta].
  - rewrite append_empty_delta. eauto.
  - destruct (Cache._pieces c) as [|p ps] eqn:Hp.
    + rewrite append_cold by (auto; discriminate). eauto.
    + assert (Hne : Cache._pieces c <> []) by (rewrite Hp; discriminate).
      destruct (@hot_index c Hk Hne) as (i & rs & e & _ & Hz & _ & Hnth).
      rewrite (@append_hot encoding c (a :: delta) i rs e);
        [eauto | discriminate | exact Hne | exact Hz | exact Hnth].
Qed.

(** Without it, the hot path indexes [pieces] past its end. *)
Lemma append_raises (c : Cache.t) (delta : text) :
  (Cache._backtrack_pieces c < 1)%Z ->
  delta <> [] -> Cache._pieces c <> [] ->
  Cache.append_ordinary encoding c delta = Raise IndexError.
Proof.
  intros Hk Hd Hp. destruct delta as [|a delta]; [congruence|].
  unfold Cache.append_ordinary.
  destruct (Nat.eqb_spec (length (Cache._pieces c)) 0) as [H0|_].
  { destruct (Cache._pieces c); [congruence | discriminate]. }
  set (n := length (Cache._pieces c)).
  replace (Z.of_nat n - Z.min (Cache._backtrack_pieces c) (Z.of_nat n))%Z
    with (Z.of_nat (n + Z.to_nat (- Cache._backtrack_pieces c))) by lia.
  rewrite getitem_nat.
  destruct (nth_error (Cache._pieces c) _) eqn:Hnth; [|reflexivity].
  assert (nth_error (Cache._pieces c)
            (n + Z.to_nat (- Cache._backtrack_pieces c)) = None) as Hnone
    by (apply nth_error_None; unfold n; lia).
  congruence.
Qed.

(** Truncating the flat token list by the token count of the trailing
    piece lists leaves the concatenation of the leading ones. *)
Lemma truncate_tokens (toks : list token) (pts : list (list token)) (i : nat) :
  toks = concat pts ->
  let rollback := token_count (skipn i pts) in
  (if rollback =? 0 then toks else Py.del_last rollback toks) =
  concat (firstn i pts).
Proof.
  intros -> rollback. unfold rollback, Py.del_last.
  rewrite token_count_concat.
  assert (E : concat pts = concat (firstn i pts) ++ concat (skipn i pts))
    by (now rewrite <- concat_app, firstn_skipn).
  rewrite E. generalize (concat (firstn i pts)) (concat (skipn i pts)).
  intros A B. rewrite length_app.
  destruct (Nat.eqb_spec (length B) 0) as [H0|_].
  - apply length_zero_iff_nil in H0. rewrite H0. apply app_nil_r.
  - replace (length A + length B - length B) with (length A + 0) by lia.
    rewrite firstn_app_2. simpl. apply app_nil_r.
Qed.

(** (P1) and (P4): established by [reset], kept by [append_ordinary]. *)
Lemma reset_P1_P4 (c : Cache.t) (txt : text) :
  P1 (Cache.reset encoding c txt) /\ P4 (Cache.reset encoding c txt).
Proof.
  rewrite reset_eq. unfold P1, P4, encode_matches; simpl.
  now rewrite length_map.
Qed.

Lemma append_P1_P4 (c c' : Cache.t) (delta : text) (td : TokenDelta) :
  (1 <= Cache._backtrack_pieces c)%Z ->
  P1 c -> P4 c ->
  Cache.append_ordinary encoding c delta = Ok (c', td) ->
  P1 c' /\ P4 c'.
Proof.
  intros Hk H1 H4 Happ. destruct delta as [|a delta].
  - rewrite append_empty_delta in Happ. now injection Happ as <- _.
  - destruct (Cache._pieces c) as [|p ps] eqn:Hp.
    + rewrite append_cold in Happ by (auto; discriminate).
      injection Happ as <- _. unfold P1, P4, encode_matches; simpl.
      now rewrite length_map.
    + assert (Hne : Cache._pieces c <> []) by (rewrite Hp; discriminate).
      destruct (@hot_index c Hk Hne) as (i & rs & e & Hi & Hz & _ & Hnth).
      rewrite (@append_hot encoding c (a :: delta) i rs e) in Happ;
        [| discriminate | exact Hne | exact Hz | exact Hnth].
      injection Happ as <- _. unfold P1, P4 in *; simpl.
      rewrite (@truncate_tokens _ (Cache._piece_tokens c) i H1), concat_app.
      split; [reflexivity|].
      cbv zeta in Hi. unfold shift, encode_matches.
      rewrite !length_app, !length_firstn, !length_map.
      do 2 f_equal. exact H4.
Qed.

Lemma reachable_P1_P4 (k : Z) (c : Cache.t) :
  reachable encoding k c -> P1 c /\ P4 c.
Proof.
  intros Hr.
  induction Hr as [txt c Hinit | c txt _ _ | c delta c' td Hr IH Happ].
  - apply init_inv in Hinit as [_ ->]. apply reset_P1_P4.
  - apply reset_P1_P4.
  - apply reachable_backtrack in Hr as [Hk Hc].
    destruct IH as [H1 H4]. eapply append_P1_P4; eauto. lia.
Qed.

End CacheInvariants.

(** ** The delta and the cache agree *)

Lemma append_delta_consistent (encoding : Encoding.t) (c c' : Cache.t)
  (delta : text) (td : TokenDelta) :
  Cache.append_ordinary encoding c delta = Ok (c', td) ->
  apply_delta (Cache._tokens c) td = Cache._tokens c'.
Proof.
  intros Happ. unfold apply_delta. destruct delta as [|a delta].
  - rewrite append_empty_delta in Happ. injection Happ as <- <-. simpl.
    now rewrite Nat.sub_0_r, firstn_all, app_nil_r.
  - destruct (Cache._pieces c) as [|p ps] eqn:Hp.
    + rewrite append_cold in Happ by (auto; discriminate).
      injection Happ as <- <-. simpl. now rewrite Nat.sub_diag.
    + assert (Hne : Cache._pieces c <> []) by (rewrite Hp; discriminate).
      destruct (Z.ltb_spec (Cache._backtrack_pieces c) 1) as [Hk|Hk].
      { rewrite append_raises in Happ by (auto; discriminate). discriminate. }
      destruct (@hot_index c Hk Hne) as (i & rs & e & _ & Hz & _ & Hnth).
      rewrite (@append_hot encoding c (a :: delta) i rs e) in Happ;
        [| discriminate | exact Hne | exact Hz | exact Hnth].
      injection Happ as <- <-. simpl. f_equal.
      destruct (Nat.eqb_spec (token_count (skipn i (Cache._piece_tokens c))) 0)
        as [-> | _]; [|reflexivity].
      now rewrite Nat.sub_0_r, firstn_all.
Qed.

(** ** Agreement with a cold run under the backtrack assumption *)

Section ColdEquivalence.

Variable encoding : Encoding.t.
Variable k : Z.

Hypothesis in_range : matches_in_range encoding.
Hypothesis backtrack : backtrack_assumption encoding k.

Local Abbreviation finditer := (Encoding.finditer encoding).

Lemma reset_cold_state (c : Cache.t) (txt : text) :
  Cache.reset encoding c txt =
  cold_state encoding (Cache._backtrack_pieces c) txt.
Proof. apply reset_eq. Qed.

Lemma encode_matches_app (txt : text) (ms1 ms2 : list span) :
  encode_matches encoding txt (ms1 ++ ms2) =
  encode_matches encoding txt ms1 ++ encode_matches encoding txt ms2.
Proof. apply map_app. Qed.

Lemma encode_matches_shift (txt : text) (offset : nat) (ms : list span) :
  encode_matches encoding txt (shift offset ms) =
  encode_matches encoding (skipn offset txt) ms.
Proof.
  unfold encode_matches, shift. rewrite map_map.
  apply map_ext. intros m. now rewrite group0_shift.
Qed.

Lemma encode_matches_old (txt delta : text) (i : nat) :
  encode_matches encoding (txt ++ delta) (firstn i (finditer txt)) =
  firstn i (encode_matches encoding txt (finditer txt)).
Proof.
  unfold encode_matches. rewrite firstn_map. apply map_ext_in.
  intros m Hm. rewrite group0_app; [reflexivity|].
  apply in_range. rewrite <- (firstn_skipn i (finditer txt)).
  apply in_or_app. left. exact Hm.
Qed.

(** One append on a cold state gives the cold state of the longer text. *)
Lemma append_cold_state (txt delta : text) :
  (1 <= k)%Z ->
  exists td,
    Cache.append_ordinary encoding (cold_state encoding k txt) delta =
    Ok (cold_state encoding k (txt ++ delta), td).
Proof.
  intros Hk. destruct delta as [|a delta].
  - rewrite append_empty_delta, app_nil_r. eauto.
  - destruct (finditer txt) as [|p ps] eqn:Hp.
    + rewrite append_cold; [eauto | discriminate | simpl; exact Hp].
    + set (c := cold_state encoding k txt).
      assert (Hne : Cache._pieces c <> []) by (simpl; rewrite Hp; discriminate).
      destruct (@hot_index c Hk Hne) as (i & rs & e & _ & Hz & _ & Hnth).
      rewrite (@append_hot encoding c (a :: delta) i rs e);
        [| discriminate | exact Hne | exact Hz | exact Hnth].
      eexists. do 2 f_equal. unfold cold_state. simpl in *.
      assert (Hcold : finditer (txt ++ a :: delta) =
                firstn i (finditer txt)
                ++ shift rs (finditer (skipn rs (txt ++ a :: delta)))).
      { eapply backtrack;
          [discriminate | symmetry; exact Hz | exact Hnth]. }
      assert (Hpts : encode_matches encoding (txt ++ a :: delta)
                       (finditer (txt ++ a :: delta)) =
                firstn i (encode_matches encoding txt (finditer txt))
                ++ encode_matches encoding (skipn rs (txt ++ a :: delta))
                     (finditer (skipn rs (txt ++ a :: delta)))).
      { rewrite Hcold.
        now rewrite encode_matches_app, encode_matches_shift,
          encode_matches_old. }
      rewrite (@truncate_tokens _ _ i eq_refl).
      rewrite Hpts, concat_app, <- Hcold. reflexivity.
Qed.

(** Every state the public calls reach is the cold state of its text. *)
Lemma reachable_cold_state (c : Cache.t) :
  reachable encoding k c -> c = cold_state encoding k (Cache._text c).
Proof.
  intros Hr.
  induction Hr as [txt c Hinit | c txt Hr _ | c delta c' td Hr IH Happ].
  - apply init_inv in Hinit as [_ ->]. now rewrite reset_cold_state.
  - apply reachable_backtrack in Hr as [_ Hc].
    now rewrite reset_cold_state, Hc.
  - apply reachable_backtrack in Hr as [Hk _].
    destruct (@append_cold_state (Cache._text c) delta Hk) as [td' Hcold].
    rewrite <- IH in Hcold. rewrite Hcold in Happ.
    now injection Happ as <- _.
Qed.

Lemma appends_cold_state (deltas : list text) :
  (1 <= k)%Z ->
  forall txt, exists tds,
    appends encoding (cold_state encoding k txt) deltas =
    Ok (cold_state encoding k (txt ++ concat deltas), tds) /\
    forall n,
      apply_deltas (Cache._tokens (cold_state encoding k txt)) (firstn n tds) =
      Cache._tokens
        (cold_state encoding k (txt ++ concat (firstn n deltas))).
Proof.
  intros Hk. induction deltas as [|d deltas IH]; intros txt.
  - exists []. simpl. rewrite app_nil_r. split; [reflexivity|].
    intros n. rewrite !firstn_nil. simpl. now rewrite app_nil_r.
  - destruct (@append_cold_state txt d Hk) as [td Hd].
    destruct (IH (txt ++ d)) as (tds & Hds & Hn).
    exists (td :: tds). split.
    { cbn [appends concat]. now rewrite Hd, Hds, <- app_assoc. }
    intros [|n].
    + simpl. now rewrite app_nil_r.
    + change (firstn (S n) (td :: tds)) with (td :: firstn n tds).
      change (concat (firstn (S n) (d :: deltas)))
        with (d ++ concat (firstn n deltas)).
      apply append_delta_consistent in Hd.
      unfold apply_deltas in *. cbn [fold_left].
      rewrite Hd, Hn, <- app_assoc. reflexivity.
Qed.

End ColdEquivalence.

(** ** Facts about the concrete encoders *)

Lemma dot_group0 (txt : text) (i : nat) :
  Py.group0 txt (i, S i) = firstn 1 (skipn i txt).
Proof. unfold Py.group0. cbn [fst snd]. f_equal. lia. Qed.

Lemma dot_piece_contract : piece_contract DotEnc.enc.
Proof.
  intros txt. cbn [Encoding.encode_ordinary Encoding.finditer
                   Encoding._encode_single_piece DotEnc.enc].
  unfold DotEnc.finditer, encode_matches. rewrite map_map.
  induction txt as [|a txt IH]; [reflexivity|].
  cbn [length seq map concat]. rewrite <- seq_shift, map_map.
  rewrite dot_group0. cbn [skipn firstn map app]. f_equal.
  rewrite IH at 1. reflexivity.
Qed.

Lemma dot_matches_in_range : matches_in_range DotEnc.enc.
Proof.
  intros txt m. simpl. unfold DotEnc.finditer. rewrite in_map_iff.
  intros (i & <- & Hi). apply in_seq in Hi. simpl. lia.
Qed.

Lemma dot_nth_error (txt : text) (i s e : nat) :
  nth_error (DotEnc.finditer txt) i = Some (s, e) ->
  s = i /\ i < length txt.
Proof.
  unfold DotEnc.finditer. intros H.
  rewrite nth_error_map, nth_error_seq in H.
  destruct (Nat.ltb_spec i (length txt)); [|discriminate].
  simpl in H. injection H as <- _. auto.
Qed.

Lemma firstn_seq_le (a i n : nat) :
  i <= n -> firstn i (seq a n) = seq a i.
Proof.
  intros Hi. replace n with (i + (n - i)) by lia.
  rewrite seq_app, firstn_app, length_seq, Nat.sub_diag. simpl.
  rewrite app_nil_r. apply firstn_all2. rewrite length_seq. lia.
Qed.

Lemma map_add_seq (i a n : nat) :
  map (Nat.add i) (seq a n) = seq (i + a) n.
Proof.
  revert a; induction n as [|n IH]; intros a; simpl; [reflexivity|].
  f_equal. rewrite IH. f_equal. lia.
Qed.

Lemma dot_backtrack (k : Z) : backtrack_assumption DotEnc.enc k.
Proof.
  intros txt delta i rs e _ pieces _ Hnth.
  apply dot_nth_error in Hnth as [-> Hi]. subst pieces. simpl.
  unfold DotEnc.finditer, shift.
  rewrite firstn_map, firstn_seq_le, map_map, length_skipn, length_app by lia.
  simpl.
  replace (length txt + length delta)
    with (i + (length txt + length delta - i)) at 1 by lia.
  rewrite seq_app, map_app. f_equal. simpl.
  replace i with (i + 0) at 1 by lia.
  rewrite <- map_add_seq, map_map. apply map_ext. intros x.
  f_equal. lia.
Qed.

Lemma uncode_code (c : char) : uncode (code c) = c.
Proof. unfold uncode, code. now rewrite N2Z.id, ascii_N_embedding. Qed.

Lemma dot_stable_split_guarantee : stable_split_guarantee DotEnc.enc.
Proof.
  intros txt ext st. subst st. simpl.
  rewrite removelast_firstn_len, !length_map, length_firstn, length_map.
  set (m := Nat.min (pred (length txt)) (length txt)).
  assert (Hm : m = pred (length txt)) by lia. rewrite <- Hm.
  rewrite <- (firstn_skipn m (txt ++ ext)) at 1.
  rewrite map_app, firstn_app, firstn_map.
  replace (m - length txt) with 0 by lia. simpl.
  now rewrite app_nil_r.
Qed.

Lemma lookbehind_stable_prefix_guarantee :
  stable_prefix_guarantee LookbehindEnc.enc.
Proof.
  intros txt ext. simpl.
  destruct txt as [|a [|b r]]; try (eexists; reflexivity).
  unfold LookbehindEnc.encode_with_unstable.
  destruct (LookbehindEnc.is_char "a" a) eqn:Ha;
    [|eexists; reflexivity].
  destruct (LookbehindEnc.is_char "b" b) eqn:Hb;
    [|eexists; reflexivity].
  apply Ascii.eqb_eq in Ha, Hb. subst a b. simpl.
  unfold by_pieces, LookbehindEnc.finditer. simpl.
  eexists. reflexivity.
Qed.

Lemma lookbehind_piece_contract : piece_contract LookbehindEnc.enc.
Proof. intros txt. reflexivity. Qed.

Lemma alt_piece_contract : piece_contract AltEnc.enc.
Proof. intros txt. reflexivity. Qed.

Lemma code_lt_256 (c : char) : (code c < 256)%Z.
Proof.
  unfold code. pose proof (N_ascii_bounded c) as H. lia.
Qed.

(** Decoding undoes the encoding of a piece. *)
Lemma merged_decode_piece (w piece : text) :
  merged_decode w (merged_piece w piece) = piece.
Proof.
  unfold merged_piece, merged_decode.
  destruct (list_eq_dec ascii_dec piece w) as [-> | _].
  - simpl. apply app_nil_r.
  - induction piece as [|c piece IH]; [reflexivity|]. simpl.
    destruct (Z.eqb_spec (code c) 256) as [H|_].
    + pose proof (code_lt_256 c). lia.
    + now rewrite uncode_code, IH.
Qed.

Lemma merged_decode_app (w : text) (toks1 toks2 : list token) :
  merged_decode w (toks1 ++ toks2) =
  merged_decode w toks1 ++ merged_decode w toks2.
Proof. apply flat_map_app. Qed.

Lemma merged_decode_by_pieces (w : text) (finditer : text -> list span)
  (txt : text) :
  merged_decode w (by_pieces finditer (merged_piece w) txt) =
  concat (map (Py.group0 txt) (finditer txt)).
Proof.
  unfold by_pieces. generalize (finditer txt). intros ms.
  induction ms as [|m ms IH]; [reflexivity|].
  cbn [map concat].
  now rewrite merged_decode_app, IH, merged_decode_piece.
Qed.

Lemma group0_after (pre t : text) (n : nat) :
  Py.group0 (pre ++ t) (length pre, length pre + n) = firstn n t.
Proof.
  unfold Py.group0. cbn [fst snd].
  rewrite skipn_app, skipn_all, Nat.sub_diag. simpl. f_equal. lia.
Qed.

Lemma lookbehind_scan_step (prev_a : bool) (pos : nat) (c c2 : char)
  (r2 : text) :
  LookbehindEnc.scan prev_a pos (c :: c2 :: r2) =
  if negb prev_a && LookbehindEnc.is_char "b" c && LookbehindEnc.is_char "c" c2
  then (pos, pos + 2) :: LookbehindEnc.scan false (pos + 2) r2
  else (pos, pos + 1)
       :: LookbehindEnc.scan (LookbehindEnc.is_char "a" c) (pos + 1) (c2 :: r2).
Proof. reflexivity. Qed.

(** The pieces of the look-behind pattern tile the text. *)
Lemma lookbehind_scan_tiles (n : nat) :
  forall (t pre : text) (prev_a : bool),
    length t <= n ->
    concat (map (Py.group0 (pre ++ t))
                (LookbehindEnc.scan prev_a (length pre) t)) = t.
Proof.
  induction n as [|n IH]; intros t pre prev_a Hn.
  - destruct t; [reflexivity | simpl in Hn; lia].
  - destruct t as [|c [|c2 r2]]; [reflexivity | |].
    + cbn [LookbehindEnc.scan map concat].
      now rewrite group0_after.
    + rewrite lookbehind_scan_step.
      destruct (negb prev_a && LookbehindEnc.is_char "b" c
                && LookbehindEnc.is_char "c" c2).
      * cbn [map concat]. rewrite group0_after. cbn [firstn app].
        do 2 f_equal.
        replace (pre ++ c :: c2 :: r2) with ((pre ++ [c; c2]) ++ r2)
          by (now rewrite <- app_assoc).
        replace (length pre + 2) with (length (pre ++ [c; c2]))
          by (rewrite length_app; reflexivity).
        apply IH. simpl in Hn. lia.
      * cbn [map concat]. rewrite group0_after. cbn [firstn app].
        f_equal.
        replace (pre ++ c :: c2 :: r2) with ((pre ++ [c]) ++ c2 :: r2)
          by (now rewrite <- app_assoc).
        replace (length pre + 1) with (length (pre ++ [c]))
          by (rewrite length_app; reflexivity).
        apply IH. simpl in Hn. simpl. lia.
Qed.

(** [decode] inverts [encode_ordinary] for the look-behind encoder. *)
Lemma lookbehind_decode_encode (txt : text) :
  Encoding.decode LookbehindEnc.enc
    (Encoding.encode_ordinary LookbehindEnc.enc txt) = txt.
Proof.
  cbn [Encoding.decode Encoding.encode_ordinary LookbehindEnc.enc].
  rewrite merged_decode_by_pieces. unfold LookbehindEnc.finditer.
  apply (lookbehind_scan_tiles (length txt) txt [] false). lia.
Qed.

Lemma match_alts_le (alts : list text) (txt : text) :
  AltEnc.match_alts alts txt <= length txt.
Proof.
  induction alts as [|w alts IH]; simpl; [lia|].
  destruct (Py.startswith txt w) eqn:Hsw; [|exact IH].
  now apply startswith_is_prefix, is_prefix_split in Hsw.
Qed.

Lemma alt_scan_in_range (alts : list text) (txt : text) :
  forall skip pos m,
    In m (AltEnc.scan alts skip pos txt) -> snd m <= pos + length txt.
Proof.
  induction txt as [|c r IH]; intros skip pos m; [intros []|].
  cbn [AltEnc.scan length]. destruct skip as [|n].
  - pose proof (match_alts_le alts (c :: r)) as Hle. cbn [length] in Hle.
    destruct (AltEnc.match_alts alts (c :: r)) as [|n].
    + intros Hm. apply IH in Hm. lia.
    + intros [<- | Hm]; [simpl; lia|]. apply IH in Hm. lia.
  - intros Hm. apply IH in Hm. lia.
Qed.

Lemma alt_matches_in_range : matches_in_range AltEnc.enc.
Proof.
  intros txt m Hm. apply alt_scan_in_range in Hm. exact Hm.
Qed.

(** The backtrack assumption fails for the alternation with two pieces of
    backtracking: the literal [abcd] spans four pieces of [abc ++ d]. *)
Lemma alt_backtrack_fails : ~ backtrack_assumption AltEnc.enc 2.
Proof.
  intros H.
  specialize (H (str "abc") (str "d") 1 1 2).
  cbv zeta in H. vm_compute in H.
  assert (E : [(0, 4)] = [(0, 1); (1, 2); (2, 3); (3, 4)])
    by (apply H; [discriminate | reflexivity | reflexivity]).
  discriminate E.
Qed.

(** ** Further facts about cold states *)

Lemma cold_tokens (encoding : Encoding.t) (k : Z) (txt : text) :
  piece_contract encoding ->
  Cache._tokens (cold_state encoding k txt) =
  Encoding.encode_ordinary encoding txt.
Proof. intros Hc. rewrite Hc. reflexivity. Qed.

Lemma init_cold_state (encoding : Encoding.t) (k : Z) (txt : text) :
  (1 <= k)%Z -> Cache.init encoding txt k = Ok (cold_state encoding k txt).
Proof. apply init_eq. Qed.

Lemma token_count_skipn_le (pts : list (list token)) (i : nat) :
  token_count (skipn i pts) <= token_count pts.
Proof.
  rewrite <- (firstn_skipn i pts) at 2. unfold token_count.
  rewrite map_app, list_sum_app. lia.
Qed.

(** * Properties stated by the specification *)

(** ** Fixed-prefix cache *)

(** C5. [stable_split_for_text] raises the stable-split mismatch error
    exactly when the decoding of the stable tokens returned by
    [encode_with_unstable] is not a character prefix of the input; when it
    returns, its result holds those stable tokens, their decoding as
    [stable_text], and an [unstable_text] such that
    [decode(stable_tokens) ++ unstable_text] is the input. *)
Theorem stable_split_for_text_spec (encoding : Encoding.t) (txt : text) :
  let st := fst (Encoding.encode_with_unstable encoding txt) in
  (stable_split_for_text encoding txt = Raise StableSplitMismatch <->
   ~ is_prefix (Encoding.decode encoding st) txt) /\
  (forall e, stable_split_for_text encoding txt = Raise e ->
             e = StableSplitMismatch) /\
  (forall r, stable_split_for_text encoding txt = Ok r ->
     stable_tokens r = st /\
     stable_text r = Encoding.decode encoding (stable_tokens r) /\
     Encoding.decode encoding (stable_tokens r) ++ unstable_text r = txt).
Proof.
  intros st. subst st. unfold stable_split_for_text.
  destruct (Encoding.encode_with_unstable encoding txt) as [st comps].
  cbn [fst].
  destruct (Py.startswith txt (Encoding.decode encoding st)) eqn:Hsw;
    cbn [negb].
  - apply startswith_is_prefix in Hsw. split; [|split].
    + split; [discriminate | intros Hn; contradiction].
    + discriminate.
    + intros r [= <-]. cbn. repeat split.
      now apply is_prefix_split.
  - assert (Hn : ~ is_prefix (Encoding.decode encoding st) txt).
    { intros Hp. apply startswith_is_prefix in Hp. congruence. }
    split; [|split].
    + split; auto.
    + now intros e [= <-].
    + discriminate.
Qed.

Lemma stable_split_for_text_spec_witness :
  stable_split_for_text DotEnc.enc (str "hello") =
    Ok {| stable_tokens := [104; 101; 108; 108]%Z;
          stable_text := str "hell";
          unstable_text := str "o" |} /\
  Encoding.decode DotEnc.enc [104; 101; 108; 108]%Z ++ str "o" = str "hello".
Proof.
  split; [reflexivity|].
  destruct (stable_split_for_text_spec DotEnc.enc (str "hello"))
    as (_ & _ & Hok).
  destruct (Hok _ eq_refl) as (_ & _ & H). exact H.
Defined.

(** C1 (amended). When the encoder satisfies the stable-split guarantee in
    the form the cache relies on (after the stable tokens, the cold
    tokenization of a right-extension continues with the cold tokenization
    of the characters the stable tokens do not cover), then for every prefix
    [P] on which construction succeeds and every suffix [S],
    [FixedPrefixTokenCache(P).encode_ordinary(S)] equals
    [encoder.encode_ordinary(P ++ S)]. *)
Theorem fixed_prefix_encode_ordinary_cold
  (encoding : Encoding.t) (P S : text) (cache : FixedPrefixTokenCache.t) :
  stable_split_guarantee encoding ->
  FixedPrefixTokenCache.init encoding P = Ok cache ->
  FixedPrefixTokenCache.encode_ordinary cache S =
  Encoding.encode_ordinary encoding (P ++ S).
Proof.
  intros Hg Hinit. unfold FixedPrefixTokenCache.init in Hinit.
  destruct (stable_split_for_text encoding P) as [split|e] eqn:Hsplit;
    [|discriminate].
  injection Hinit as <-.
  unfold FixedPrefixTokenCache.encode_ordinary,
    FixedPrefixTokenCache.encode_ordinary_tail.
  cbn [FixedPrefixTokenCache._split FixedPrefixTokenCache._encoding].
  unfold stable_split_for_text in Hsplit.
  specialize (Hg P S). cbv zeta in Hg.
  destruct (Encoding.encode_with_unstable encoding P) as [st comps].
  cbn [fst] in Hg.
  destruct (Py.startswith P (Encoding.decode encoding st)) eqn:Hsw;
    cbn [negb] in Hsplit; [|discriminate].
  injection Hsplit as <-. cbn [stable_tokens unstable_text].
  apply startswith_is_prefix, is_prefix_split in Hsw as [_ Hlen].
  rewrite Hg, skipn_app.
  replace (length (Encoding.decode encoding st) - length P) with 0 by lia.
  reflexivity.
Qed.

Lemma fixed_prefix_encode_ordinary_cold_witness :
  exists cache,
    FixedPrefixTokenCache.init DotEnc.enc (str "hello ") = Ok cache /\
    FixedPrefixTokenCache.unstable_prefix_char_count cache = 1 /\
    FixedPrefixTokenCache.encode_ordinary cache (str "world") =
    Encoding.encode_ordinary DotEnc.enc (str "hello " ++ str "world").
Proof.
  eexists. split; [reflexivity|]. split; [reflexivity|].
  apply (fixed_prefix_encode_ordinary_cold DotEnc.enc (str "hello ")).
  - exact dot_stable_split_guarantee.
  - reflexivity.
Defined.

(** C1, as stated, fails: the prefix guarantee of [encode_with_unstable]
    alone does not make the re-encoded tail continue the stable tokens.
    With the pattern [(?<!a)bc|(?s).], prefix [ab] and suffix [c], the cache
    re-encodes [bc] without the [a] before it. *)
Lemma fixed_prefix_prefix_guarantee_insufficient :
  stable_prefix_guarantee LookbehindEnc.enc /\
  piece_contract LookbehindEnc.enc /\
  (forall txt,
     Encoding.decode LookbehindEnc.enc
       (Encoding.encode_ordinary LookbehindEnc.enc txt) = txt) /\
  exists cache,
    FixedPrefixTokenCache.init LookbehindEnc.enc (str "ab") = Ok cache /\
    FixedPrefixTokenCache.encode_ordinary cache (str "c") = [97; 256]%Z /\
    Encoding.encode_ordinary LookbehindEnc.enc (str "ab" ++ str "c")
      = [97; 98; 99]%Z /\
    FixedPrefixTokenCache.encode_ordinary cache (str "c") <>
    Encoding.encode_ordinary LookbehindEnc.enc (str "ab" ++ str "c").
Proof.
  split; [exact lookbehind_stable_prefix_guarantee|].
  split; [exact lookbehind_piece_contract|].
  split; [exact lookbehind_decode_encode|].
  eexists. split; [reflexivity|].
  split; [reflexivity|]. split; [reflexivity|].
  vm_compute. discriminate.
Qed.

(** ** Append-only cache: construction and the empty delta *)

(** C6. Construction raises the invalid-argument error exactly when
    [backtrack_pieces < 1]; for every [backtrack_pieces >= 1] and every
    initial text it returns, and the state it leaves is the state
    [reset(initial_text)] leaves in any cache with that
    [backtrack_pieces]. *)
Theorem init_spec (encoding : Encoding.t) (initial_text : text) (k : Z) :
  (Cache.init encoding initial_text k = Raise InvalidArgument <-> (k < 1)%Z) /\
  ((1 <= k)%Z ->
   exists c,
     Cache.init encoding initial_text k = Ok c /\
     forall c0, Cache._backtrack_pieces c0 = k ->
                Cache.reset encoding c0 initial_text = c).
Proof.
  unfold Cache.init. destruct (Z.ltb_spec k 1) as [Hk|Hk].
  - split; [split; [intros _; exact Hk | reflexivity] | lia].
  - split; [split; [discriminate | lia]|].
    intros _. eexists. split; [reflexivity|].
    intros c0 Hc0. now rewrite !reset_eq, Hc0.
Qed.

Lemma init_spec_witness :
  Cache.init DotEnc.enc (str "foo") 0 = Raise InvalidArgument /\
  exists c,
    Cache.init DotEnc.enc (str "foo") 2 = Ok c /\
    Cache.reset DotEnc.enc (cold_state DotEnc.enc 2 (str "other")) (str "foo")
    = c.
Proof.
  destruct (init_spec DotEnc.enc (str "foo") 0) as [[_ Hfail] _].
  destruct (init_spec DotEnc.enc (str "foo") 2) as [_ Hok].
  split; [apply Hfail; lia|].
  destruct Hok as (c & Hc & Hreset); [lia|].
  exists c. split; [exact Hc | apply Hreset; reflexivity].
Defined.

(** C7. In every cache state, [append_ordinary] with the empty delta
    returns rollback 0 and no tokens to append, and leaves every field of
    the state as it was. *)
Theorem append_empty_delta_noop (encoding : Encoding.t) (c : Cache.t) :
  Cache.append_ordinary encoding c [] =
  Ok (c, {| rollback_tokens := 0; tokens_to_append := [] |}).
Proof. reflexivity. Qed.

(** ** Append-only cache: invariants *)

(** C4. After every public call (construction, [reset], [append_ordinary])
    the flat token list is the concatenation of [piece_tokens], and
    [pieces] and [piece_tokens] have the same length, whatever
    [backtrack_pieces] is. *)
Theorem P1_P4_after_every_call
  (encoding : Encoding.t) (k : Z) (c : Cache.t) :
  reachable encoding k c -> P1 c /\ P4 c.
Proof.
  intros Hr.
  induction Hr as [txt c Hinit | c txt _ _ | c delta c' td Hr IH Happ].
  - (* construction *)
    apply init_inv in Hinit as [_ ->]. apply reset_P1_P4.
  - (* reset *)
    apply reset_P1_P4.
  - (* append_ordinary *)
    apply reachable_backtrack in Hr as [Hk Hc]. destruct IH as [H1 H4].
    apply (append_P1_P4 encoding c c' delta td); auto. lia.
Qed.

Lemma P1_P4_after_every_call_witness :
  let c1 := {| Cache._backtrack_pieces := 1;
               Cache._text := str "abcd";
               Cache._pieces := [(0, 1); (1, 2); (2, 3); (3, 4)];
               Cache._piece_tokens := [[97]; [98]; [99]; [100]]%Z;
               Cache._tokens := [97; 98; 99; 100]%Z |} in
  reachable AltEnc.enc 1 c1 /\ P1 c1 /\ P4 c1.
Proof.
  intros c1.
  assert (Hr : reachable AltEnc.enc 1 c1).
  { apply (@reach_append AltEnc.enc 1 (cold_state AltEnc.enc 1 (str "abc"))
             (str "d") c1
             {| rollback_tokens := 1; tokens_to_append := [99; 100]%Z |}).
    - apply (@reach_init AltEnc.enc 1 (str "abc")). reflexivity.
    - reflexivity. }
  split; [exact Hr|].
  exact (P1_P4_after_every_call AltEnc.enc 1 c1 Hr).
Defined.

(** C10. For every [append_ordinary] call that returns, in every state and
    for every [backtrack_pieces]: the token list held before the call with
    its last [rollback_tokens] elements removed, followed by
    [tokens_to_append], is the token list held after the call.  The call
    returns whenever [backtrack_pieces >= 1]. *)
Theorem delta_reproduces_tokens
  (encoding : Encoding.t) (c : Cache.t) (delta : text) :
  (forall c' td,
     Cache.append_ordinary encoding c delta = Ok (c', td) ->
     firstn (length (Cache._tokens c) - rollback_tokens td) (Cache._tokens c)
     ++ tokens_to_append td = Cache._tokens c') /\
  ((1 <= Cache._backtrack_pieces c)%Z ->
   exists c' td, Cache.append_ordinary encoding c delta = Ok (c', td)).
Proof.
  split.
  - intros c' td Happ. exact (append_delta_consistent _ _ _ _ _ Happ).
  - apply append_returns.
Qed.

Lemma delta_reproduces_tokens_witness :
  let c := cold_state AltEnc.enc 2 (str "abc") in
  let c' := {| Cache._backtrack_pieces := 2;
               Cache._text := str "abcd";
               Cache._pieces := [(0, 1); (1, 2); (2, 3); (3, 4)];
               Cache._piece_tokens := [[97]; [98]; [99]; [100]]%Z;
               Cache._tokens := [97; 98; 99; 100]%Z |} in
  let td := {| rollback_tokens := 2; tokens_to_append := [98; 99; 100]%Z |} in
  Cache.append_ordinary AltEnc.enc c (str "d") = Ok (c', td) /\
  Cache._tokens c' <> Encoding.encode_ordinary AltEnc.enc (str "abcd") /\
  firstn (length (Cache._tokens c) - rollback_tokens td) (Cache._tokens c)
  ++ tokens_to_append td = Cache._tokens c'.
Proof.
  intros c c' td.
  assert (Happ : Cache.append_ordinary AltEnc.enc c (str "d") = Ok (c', td))
    by reflexivity.
  split; [exact Happ|]. split; [vm_compute; discriminate|].
  exact (proj1 (delta_reproduces_tokens AltEnc.enc c (str "d")) c' td Happ).
Defined.

(** ** Append-only cache: the rollback count *)

(** C9 (amended). Every [append_ordinary] call on a cache returns, and the
    returned [rollback_tokens] lies between 0 and the number of tokens the
    cache held before the call.  An empty delta returns rollback 0; a
    non-empty delta in the populated state returns the total token count of
    the last [min(backtrack_pieces, len(pieces))] pieces. *)
Theorem rollback_bounds
  (encoding : Encoding.t) (k : Z) (c : Cache.t) (delta : text) :
  reachable encoding k c ->
  exists c' td,
    Cache.append_ordinary encoding c delta = Ok (c', td) /\
    0 <= rollback_tokens td <= length (Cache._tokens c) /\
    (delta = [] -> rollback_tokens td = 0) /\
    (delta <> [] -> Cache._pieces c <> [] ->
     rollback_tokens td =
     token_count
       (last_n (Z.to_nat (Z.min k (Z.of_nat (length (Cache._pieces c)))))
               (Cache._piece_tokens c))).
Proof.
  intros Hr.
  destruct (reachable_P1_P4 encoding k c Hr) as [H1 H4].
  apply reachable_backtrack in Hr as [Hk Hc].
  destruct delta as [|a delta].
  - do 2 eexists. split; [apply append_empty_delta|]. simpl.
    repeat split; try lia. congruence.
  - destruct (Cache._pieces c) as [|p ps] eqn:Hp.
    + do 2 eexists. split; [apply append_cold; [discriminate | exact Hp]|].
      simpl. repeat split; try lia; congruence.
    + assert (Hne : Cache._pieces c <> []) by (rewrite Hp; discriminate).
      destruct (hot_index c) as (i & rs & e & Hi & Hz & Hb & Hnth);
        [lia | exact Hne |].
      cbv zeta in Hi, Hz, Hb.
      do 2 eexists.
      split; [apply (append_hot encoding c (a :: delta) i rs e);
              [discriminate | exact Hne | exact Hz | exact Hnth]|].
      cbn [rollback_tokens]. unfold P1, P4 in *.
      split; [split; [lia|]|split; [discriminate|]].
      * rewrite H1, <- token_count_concat. apply token_count_skipn_le.
      * intros _ _. unfold last_n. rewrite <- Hp, <- Hc, <- Hb, <- H4.
        f_equal. f_equal. lia.
Qed.

Lemma rollback_bounds_witness :
  let c := cold_state DotEnc.enc 2 (str "foo") in
  exists c' td,
    Cache.append_ordinary DotEnc.enc c (str "bar") = Ok (c', td) /\
    0 <= rollback_tokens td <= 3 /\
    rollback_tokens td = 2.
Proof.
  intros c.
  assert (Hr : reachable DotEnc.enc 2 c)
    by (apply (@reach_init DotEnc.enc 2 (str "foo")); reflexivity).
  destruct (rollback_bounds DotEnc.enc 2 c (str "bar") Hr)
    as (c' & td & Happ & Hle & _ & Hsum).
  exists c', td. split; [exact Happ|]. split; [exact Hle|].
  apply Hsum; discriminate.
Defined.

(** C9, as stated, fails for the empty delta: in the populated state built
    from [foo] (three pieces of one token each, [backtrack_pieces = 2]) the
    last two pieces hold two tokens, and [append_ordinary("")] returns
    rollback 0. *)
Lemma rollback_of_empty_delta_in_populated_state :
  let c := cold_state DotEnc.enc 2 (str "foo") in
  let td := {| rollback_tokens := 0; tokens_to_append := [] |} in
  reachable DotEnc.enc 2 c /\
  Cache._pieces c <> [] /\
  Cache.append_ordinary DotEnc.enc c [] = Ok (c, td) /\
  token_count
    (last_n (Z.to_nat (Z.min 2 (Z.of_nat (length (Cache._pieces c)))))
            (Cache._piece_tokens c)) = 2 /\
  rollback_tokens td <>
  token_count
    (last_n (Z.to_nat (Z.min 2 (Z.of_nat (length (Cache._pieces c)))))
            (Cache._piece_tokens c)).
Proof.
  intros c td. split.
  - apply (@reach_init DotEnc.enc 2 (str "foo")). reflexivity.
  - split; [discriminate|]. split; [reflexivity|].
    split; [reflexivity | vm_compute; discriminate].
Qed.

(** ** Append-only cache: agreement with a cold tokenization *)

(** C8. Appending a non-empty delta to a cache in the empty state (built
    from the empty text, with no pieces) returns rollback 0 and, as tokens to
    append, the cold tokenization of the new full text. *)
Theorem cold_start_append
  (encoding : Encoding.t) (k : Z) (c : Cache.t) (delta : text) :
  piece_contract encoding ->
  Cache.init encoding [] k = Ok c ->
  Cache._pieces c = [] ->
  delta <> [] ->
  exists c',
    Cache.append_ordinary encoding c delta =
    Ok (c', {| rollback_tokens := 0;
               tokens_to_append :=
                 Encoding.encode_ordinary encoding (Cache._text c ++ delta) |})
    /\ Cache._text c' = delta.
Proof.
  intros Hcontract Hinit Hp Hd.
  apply init_inv in Hinit as [Hk ->]. rewrite reset_eq in *.
  cbn [Cache._pieces] in Hp.
  rewrite (append_cold encoding _ delta Hd) by exact Hp.
  cbn [Cache._tokens Cache._text Cache._backtrack_pieces].
  rewrite Hp. cbn [encode_matches map concat length app].
  rewrite Hcontract. eexists. split; reflexivity.
Qed.

Lemma cold_start_append_witness :
  exists c c',
    Cache.init DotEnc.enc (str "") 2 = Ok c /\
    Cache.append_ordinary DotEnc.enc c (str "hello world") =
    Ok (c', {| rollback_tokens := 0;
               tokens_to_append :=
                 Encoding.encode_ordinary DotEnc.enc (str "hello world") |}).
Proof.
  exists (cold_state DotEnc.enc 2 (str "")).
  destruct (cold_start_append DotEnc.enc 2 (cold_state DotEnc.enc 2 (str ""))
              (str "hello world") dot_piece_contract eq_refl eq_refl)
    as (c' & Happ & _); [discriminate|].
  exists c'. split; [reflexivity | exact Happ].
Defined.

(** C3. When the backtrack assumption holds for [backtrack_pieces = k]
    (and the encoder keeps its piece contract), then for every initial text
    [I] and every sequence of deltas, all the appends to the cache built
    from [I] return, the final tokens are the cold tokenization of
    [I ++ d_1 ++ ... ++ d_n], and applying the returned deltas one after the
    other to the cold tokenization of [I] gives, after each of them, the cold
    tokenization of the text after that append. *)
Theorem appends_equal_cold_tokenization
  (encoding : Encoding.t) (k : Z) (initial_text : text) (deltas : list text) :
  piece_contract encoding ->
  matches_in_range encoding ->
  backtrack_assumption encoding k ->
  (1 <= k)%Z ->
  exists c0 c tds,
    Cache.init encoding initial_text k = Ok c0 /\
    appends encoding c0 deltas = Ok (c, tds) /\
    Cache._text c = initial_text ++ concat deltas /\
    Cache._tokens c =
      Encoding.encode_ordinary encoding (initial_text ++ concat deltas) /\
    forall n,
      apply_deltas (Encoding.encode_ordinary encoding initial_text)
                   (firstn n tds) =
      Encoding.encode_ordinary encoding
        (initial_text ++ concat (firstn n deltas)).
Proof.
  intros Hcontract Hrange Hback Hk.
  destruct (appends_cold_state encoding k Hrange Hback deltas Hk initial_text)
    as (tds & Happs & Hn).
  exists (cold_state encoding k initial_text),
         (cold_state encoding k (initial_text ++ concat deltas)), tds.
  split; [now apply init_cold_state|]. split; [exact Happs|].
  split; [reflexivity|]. split; [now apply cold_tokens|].
  intros n. specialize (Hn n).
  now rewrite !cold_tokens in Hn.
Qed.

Lemma appends_equal_cold_tokenization_witness :
  exists c0 c tds,
    Cache.init DotEnc.enc (str "foo") 2 = Ok c0 /\
    appends DotEnc.enc c0 [str "bar"; str ""; str " baz"] = Ok (c, tds) /\
    Cache._text c = str "foo" ++ concat [str "bar"; str ""; str " baz"] /\
    Cache._tokens c =
      Encoding.encode_ordinary DotEnc.enc
        (str "foo" ++ concat [str "bar"; str ""; str " baz"]) /\
    forall n,
      apply_deltas (Encoding.encode_ordinary DotEnc.enc (str "foo"))
                   (firstn n tds) =
      Encoding.encode_ordinary DotEnc.enc
        (str "foo" ++ concat (firstn n [str "bar"; str ""; str " baz"])).
Proof.
  apply (appends_equal_cold_tokenization DotEnc.enc 2).
  - exact dot_piece_contract.
  - exact dot_matches_in_range.
  - exact (dot_backtrack 2).
  - lia.
Defined.

(** C2 (amended). [reset] and construction establish (P2) and (P3)
    whatever [backtrack_pieces] is, provided the encoder keeps its piece
    contract; and when the backtrack assumption holds for
    [backtrack_pieces = k], (P2) and (P3) hold after every public call
    (construction, [reset], [append_ordinary]). *)
Theorem P2_P3_under_backtrack_assumption (encoding : Encoding.t) (k : Z) :
  piece_contract encoding ->
  (forall c txt,
     P2 encoding (Cache.reset encoding c txt) /\
     P3 encoding (Cache.reset encoding c txt)) /\
  (forall initial_text c,
     Cache.init encoding initial_text k = Ok c ->
     P2 encoding c /\ P3 encoding c) /\
  (matches_in_range encoding ->
   backtrack_assumption encoding k ->
   forall c, reachable encoding k c -> P2 encoding c /\ P3 encoding c).
Proof.
  intros Hcontract.
  assert (Hcold : forall k' txt,
            P2 encoding (cold_state encoding k' txt) /\
            P3 encoding (cold_state encoding k' txt)).
  { intros k' txt. split; [reflexivity|].
    unfold P3. now rewrite cold_tokens. }
  split; [|split].
  - intros c txt. rewrite reset_eq. apply Hcold.
  - intros txt c Hinit. apply init_inv in Hinit as [_ ->].
    rewrite reset_eq. apply Hcold.
  - intros Hrange Hback c Hr.
    rewrite (reachable_cold_state encoding k Hrange Hback c Hr).
    apply Hcold.
Qed.

Lemma P2_P3_under_backtrack_assumption_witness :
  let c := cold_state DotEnc.enc 2 (str "foobar") in
  reachable DotEnc.enc 2 c /\ P2 DotEnc.enc c /\ P3 DotEnc.enc c.
Proof.
  intros c.
  assert (Hr : reachable DotEnc.enc 2 c).
  { apply (@reach_append DotEnc.enc 2 (cold_state DotEnc.enc 2 (str "foo"))
             (str "bar") c
             {| rollback_tokens := 2;
                tokens_to_append := [111; 111; 98; 97; 114]%Z |}).
    - apply (@reach_init DotEnc.enc 2 (str "foo")). reflexivity.
    - reflexivity. }
  split; [exact Hr|].
  exact (proj2 (proj2 (P2_P3_under_backtrack_assumption DotEnc.enc 2
                         dot_piece_contract))
           dot_matches_in_range (dot_backtrack 2) c Hr).
Defined.

(** C2, as stated, fails: with the pattern [abcd|a|b|c|d] and
    [backtrack_pieces = 2], appending [d] to [abc] re-runs the regex from
    the piece [b] on, so the cache keeps four one-character pieces, while a
    cold run over [abcd] finds the single piece [abcd]. *)
Lemma append_breaks_P2_P3 :
  let c0 := cold_state AltEnc.enc 2 (str "abc") in
  let c1 := {| Cache._backtrack_pieces := 2;
               Cache._text := str "abcd";
               Cache._pieces := [(0, 1); (1, 2); (2, 3); (3, 4)];
               Cache._piece_tokens := [[97]; [98]; [99]; [100]]%Z;
               Cache._tokens := [97; 98; 99; 100]%Z |} in
  let td := {| rollback_tokens := 2; tokens_to_append := [98; 99; 100]%Z |} in
  piece_contract AltEnc.enc /\
  matches_in_range AltEnc.enc /\
  Cache.init AltEnc.enc (str "abc") 2 = Ok c0 /\
  Cache.append_ordinary AltEnc.enc c0 (str "d") = Ok (c1, td) /\
  Encoding.finditer AltEnc.enc (str "abcd") = [(0, 4)] /\
  Encoding.encode_ordinary AltEnc.enc (str "abcd") = [256]%Z /\
  ~ P2 AltEnc.enc c1 /\ ~ P3 AltEnc.enc c1.
Proof.
  intros c0 c1 td.
  split; [exact alt_piece_contract|].
  split; [exact alt_matches_in_range|].
  do 4 (split; [reflexivity|]).
  split; intros H; vm_compute in H; discriminate.
Qed.

(** * Further properties of the code *)

(** ** Shared facts *)

Lemma fixed_prefix_init_inv (encoding : Encoding.t) (P : text)
  (cache : FixedPrefixTokenCache.t) :
  FixedPrefixTokenCache.init encoding P = Ok cache ->
  let st := fst (Encoding.encode_with_unstable encoding P) in
  FixedPrefixTokenCache._encoding cache = encoding /\
  FixedPrefixTokenCache._prefix cache = P /\
  stable_tokens (FixedPrefixTokenCache._split cache) = st /\
  stable_text (FixedPrefixTokenCache._split cache) =
    Encoding.decode encoding st /\
  unstable_text (FixedPrefixTokenCache._split cache) =
    skipn (length (Encoding.decode encoding st)) P /\
  is_prefix (Encoding.decode encoding st) P.
Proof.
  unfold FixedPrefixTokenCache.init, stable_split_for_text.
  destruct (Encoding.encode_with_unstable encoding P) as [st comps].
  cbn [fst].
  destruct (Py.startswith P (Encoding.decode encoding st)) eqn:Hsw;
    cbn [negb]; [|discriminate].
  intros [= <-]. cbn. repeat split.
  now apply startswith_is_prefix.
Qed.

(** The state and the delta of an [append_ordinary] call with a non-empty
    delta, in one shape for the reset branch and the hot path. *)
Lemma append_shape (encoding : Encoding.t) (c c' : Cache.t) (delta : text)
  (td : TokenDelta) :
  (1 <= Cache._backtrack_pieces c)%Z ->
  delta <> [] ->
  Cache.append_ordinary encoding c delta = Ok (c', td) ->
  let n := length (Cache._pieces c) in
  let keep := n - Z.to_nat (Z.min (Cache._backtrack_pieces c) (Z.of_nat n)) in
  let text' := Cache._text c ++ delta in
  exists rs,
    let ms := Encoding.finditer encoding (skipn rs text') in
    let new := encode_matches encoding (skipn rs text') ms in
    ((Cache._pieces c = [] /\ rs = 0 /\
      rollback_tokens td = length (Cache._tokens c)) \/
     ((exists e, nth_error (Cache._pieces c) keep = Some (rs, e)) /\
      keep < n /\
      rollback_tokens td = token_count (skipn keep (Cache._piece_tokens c))))
    /\ Cache._backtrack_pieces c' = Cache._backtrack_pieces c
    /\ Cache._text c' = text'
    /\ Cache._pieces c' = firstn keep (Cache._pieces c) ++ shift rs ms
    /\ Cache._piece_tokens c' = firstn keep (Cache._piece_tokens c) ++ new
    /\ Cache._tokens c' =
       firstn (length (Cache._tokens c) - rollback_tokens td) (Cache._tokens c)
       ++ concat new
    /\ tokens_to_append td = concat new.
Proof.
  intros Hk Hd Happ n keep text'.
  pose proof (append_delta_consistent _ _ _ _ _ Happ) as Hcons.
  unfold apply_delta in Hcons.
  destruct (Cache._pieces c) as [|p ps] eqn:Hp.
  - rewrite (append_cold encoding c delta Hd Hp) in Happ.
    injection Happ as <- <-. exists 0. subst n keep. cbn.
    rewrite shift_0, Nat.sub_diag. cbn. repeat split. left. auto.
  - assert (Hne : Cache._pieces c <> []) by (rewrite Hp; discriminate).
    destruct (hot_index c Hk Hne) as (i & rs & e & Hi & Hz & Hb & Hnth).
    cbv zeta in Hi, Hz, Hb. rewrite Hp in Hi, Hz, Hb, Hnth.
    assert (Hkeep : keep = i) by (subst keep n; lia).
    rewrite Hkeep.
    rewrite (append_hot encoding c delta i rs e Hd Hne) in Happ;
      [| rewrite Hp; exact Hz | rewrite Hp; exact Hnth].
    injection Happ as <- <-. exists rs. cbn in *.
    rewrite Hp. repeat split.
    + right. split; [eauto|]. split; [exact Hi | reflexivity].
    + destruct (Nat.eqb_spec
                  (token_count (skipn i (Cache._piece_tokens c))) 0)
        as [-> | _]; [|reflexivity].
      now rewrite Nat.sub_0_r, firstn_all.
Qed.

Lemma append_keeps_text (encoding : Encoding.t) (c c' : Cache.t)
  (delta : text) (td : TokenDelta) :
  Cache.append_ordinary encoding c delta = Ok (c', td) ->
  Cache._text c' = Cache._text c ++ delta /\
  Cache._backtrack_pieces c' = Cache._backtrack_pieces c.
Proof.
  intros Happ. destruct delta as [|a delta].
  - rewrite append_empty_delta in Happ. injection Happ as <- _.
    now rewrite app_nil_r.
  - destruct (Cache._pieces c) as [|p ps] eqn:Hp.
    + rewrite append_cold in Happ by (auto; discriminate).
      now injection Happ as <- _.
    + assert (Hne : Cache._pieces c <> []) by (rewrite Hp; discriminate).
      destruct (Z.ltb_spec (Cache._backtrack_pieces c) 1) as [Hk|Hk].
      { rewrite append_raises in Happ by (auto; discriminate). discriminate. }
      destruct (append_shape encoding c c' (a :: delta) td Hk) as (rs & H);
        [discriminate | exact Happ |].
      cbv zeta in H. tauto.
Qed.

Lemma tokens_differ_false (a b : list token) :
  tokens_differ a b = false <-> a = b.
Proof.
  unfold tokens_differ. destruct (list_eq_dec Z.eq_dec a b); split;
    congruence.
Qed.

Lemma tokens_differ_true (a b : list token) :
  tokens_differ a b = true <-> a <> b.
Proof.
  unfold tokens_differ. destruct (list_eq_dec Z.eq_dec a b); split;
    congruence.
Qed.

(** Under the stable-split guarantee the cold tokenization splits into the
    cached stable tokens and the tail the cache encodes. *)
Lemma fixed_prefix_cold_split (encoding : Encoding.t) (P S : text)
  (cache : FixedPrefixTokenCache.t) :
  stable_split_guarantee encoding ->
  FixedPrefixTokenCache.init encoding P = Ok cache ->
  Encoding.encode_ordinary encoding (P ++ S) =
  stable_tokens (FixedPrefixTokenCache._split cache)
  ++ FixedPrefixTokenCache.encode_ordinary_tail cache S.
Proof.
  intros Hg Hinit.
  destruct (fixed_prefix_init_inv encoding P cache Hinit)
    as (Henc & _ & Hst & _ & Hun & Hp).
  apply is_prefix_split in Hp as [_ Hlen].
  unfold FixedPrefixTokenCache.encode_ordinary_tail.
  rewrite Henc, Hst, Hun, (Hg P S). cbv zeta. rewrite skipn_app.
  replace (length (Encoding.decode encoding
                     (fst (Encoding.encode_with_unstable encoding P)))
           - length P) with 0 by lia.
  reflexivity.
Qed.

(** ** Fixed-prefix cache: construction and the tail *)

(** X1. Construction of a [FixedPrefixTokenCache] returns exactly when the
    decoding of the stable tokens of the prefix is a character prefix of it,
    and raises the stable-split mismatch error otherwise.  The cache it
    returns remembers the prefix, counts the stable tokens of
    [encode_with_unstable], and its decoded stable text and unstable tail
    partition the prefix: their lengths add up to the length of the
    prefix. *)
Theorem fixed_prefix_construction (encoding : Encoding.t) (P : text) :
  let st := fst (Encoding.encode_with_unstable encoding P) in
  (is_prefix (Encoding.decode encoding st) P ->
   exists cache,
     FixedPrefixTokenCache.init encoding P = Ok cache /\
     FixedPrefixTokenCache.prefix cache = P /\
     FixedPrefixTokenCache.stable_prefix_token_count cache = length st /\
     length (Encoding.decode encoding st)
     + FixedPrefixTokenCache.unstable_prefix_char_count cache = length P) /\
  (~ is_prefix (Encoding.decode encoding st) P ->
   FixedPrefixTokenCache.init encoding P = Raise StableSplitMismatch).
Proof.
  intros st. split.
  - intros Hp.
    destruct (FixedPrefixTokenCache.init encoding P) as [cache|e] eqn:Hinit.
    + exists cache. split; [reflexivity|].
      destruct (fixed_prefix_init_inv encoding P cache Hinit)
        as (_ & Hpre & Hst & _ & Hun & _).
      unfold FixedPrefixTokenCache.prefix,
        FixedPrefixTokenCache.stable_prefix_token_count,
        FixedPrefixTokenCache.unstable_prefix_char_count.
      rewrite Hpre, Hst, Hun, length_skipn. fold st.
      apply is_prefix_split in Hp as [_ Hlen]. repeat split. lia.
    + exfalso. apply startswith_is_prefix in Hp.
      unfold FixedPrefixTokenCache.init, stable_split_for_text in Hinit.
      destruct (Encoding.encode_with_unstable encoding P) as [st' comps].
      subst st. cbn [fst] in Hp. rewrite Hp in Hinit. discriminate.
  - intros Hn.
    unfold FixedPrefixTokenCache.init, stable_split_for_text.
    destruct (Encoding.encode_with_unstable encoding P) as [st' comps].
    subst st. cbn [fst] in Hn.
    destruct (Py.startswith P (Encoding.decode encoding st')) eqn:Hsw;
      [|reflexivity].
    apply startswith_is_prefix in Hsw. contradiction.
Qed.

Lemma fixed_prefix_construction_witness :
  (exists cache,
     FixedPrefixTokenCache.init DotEnc.enc (str "hello ") = Ok cache /\
     FixedPrefixTokenCache.prefix cache = str "hello " /\
     FixedPrefixTokenCache.stable_prefix_token_count cache = 5 /\
     5 + FixedPrefixTokenCache.unstable_prefix_char_count cache = 6) /\
  FixedPrefixTokenCache.init
    {| Encoding.finditer := DotEnc.finditer;
       Encoding._encode_single_piece := map code;
       Encoding.encode_ordinary := map code;
       Encoding.encode_with_unstable := fun _ => ([120%Z], []);
       Encoding.decode := map uncode |} (str "hello ")
  = Raise StableSplitMismatch.
Proof.
  split.
  - apply (proj1 (fixed_prefix_construction DotEnc.enc (str "hello "))).
    exists (str " "). reflexivity.
  - apply (proj2 (fixed_prefix_construction _ (str "hello "))).
    intros [rest Hrest]. discriminate Hrest.
Defined.

(** X2. When the encoder keeps the stable-split guarantee, the tail tokens
    returned by [encode_ordinary_tail] are the cold tokenization of
    [prefix ++ suffix] without its first [stable_prefix_token_count] tokens,
    and those first tokens are the cached stable tokens. *)
Theorem encode_ordinary_tail_is_cold_tail
  (encoding : Encoding.t) (P S : text) (cache : FixedPrefixTokenCache.t) :
  stable_split_guarantee encoding ->
  FixedPrefixTokenCache.init encoding P = Ok cache ->
  let cold := Encoding.encode_ordinary encoding (P ++ S) in
  let stable_n := FixedPrefixTokenCache.stable_prefix_token_count cache in
  firstn stable_n cold = stable_tokens (FixedPrefixTokenCache._split cache) /\
  skipn stable_n cold = FixedPrefixTokenCache.encode_ordinary_tail cache S.
Proof.
  intros Hg Hinit cold stable_n.
  assert (Hcold : cold =
            stable_tokens (FixedPrefixTokenCache._split cache)
            ++ FixedPrefixTokenCache.encode_ordinary_tail cache S)
    by (now apply fixed_prefix_cold_split).
  subst stable_n. unfold FixedPrefixTokenCache.stable_prefix_token_count.
  rewrite Hcold. split.
  - rewrite firstn_app, Nat.sub_diag, firstn_all. apply app_nil_r.
  - rewrite skipn_app, Nat.sub_diag, skipn_all. reflexivity.
Qed.

Lemma encode_ordinary_tail_is_cold_tail_witness :
  exists cache,
    FixedPrefixTokenCache.init DotEnc.enc (str "hello ") = Ok cache /\
    skipn 5 (Encoding.encode_ordinary DotEnc.enc (str "hello " ++ str "you"))
    = FixedPrefixTokenCache.encode_ordinary_tail cache (str "you") /\
    FixedPrefixTokenCache.encode_ordinary_tail cache (str "you")
    = [32; 121; 111; 117]%Z.
Proof.
  destruct (FixedPrefixTokenCache.init DotEnc.enc (str "hello "))
    as [cache|e] eqn:Hinit; [|discriminate Hinit].
  exists cache. split; [reflexivity|].
  destruct (encode_ordinary_tail_is_cold_tail DotEnc.enc (str "hello ")
              (str "you") cache dot_stable_split_guarantee Hinit)
    as [_ Htail].
  split.
  - injection Hinit as <-. exact Htail.
  - injection Hinit as <-. reflexivity.
Defined.

(** X3. A cache has no unstable tail exactly when its stable tokens decode
    to the whole prefix; in particular a cache built from the empty prefix
    has none.  Such a cache encodes only the suffix on each call:
    [encode_ordinary_tail(S)] is [encoder.encode_ordinary(S)]. *)
Theorem fixed_prefix_without_unstable_tail
  (encoding : Encoding.t) (P : text) (cache : FixedPrefixTokenCache.t) :
  FixedPrefixTokenCache.init encoding P = Ok cache ->
  (FixedPrefixTokenCache.unstable_prefix_char_count cache = 0 <->
   Encoding.decode encoding
     (stable_tokens (FixedPrefixTokenCache._split cache)) = P) /\
  (P = [] -> FixedPrefixTokenCache.unstable_prefix_char_count cache = 0) /\
  (FixedPrefixTokenCache.unstable_prefix_char_count cache = 0 ->
   forall S,
     FixedPrefixTokenCache.encode_ordinary_tail cache S =
     Encoding.encode_ordinary encoding S).
Proof.
  intros Hinit.
  destruct (fixed_prefix_init_inv encoding P cache Hinit)
    as (Henc & _ & Hst & _ & Hun & Hp).
  apply is_prefix_split in Hp as [Hsplit Hlen].
  unfold FixedPrefixTokenCache.unstable_prefix_char_count,
    FixedPrefixTokenCache.encode_ordinary_tail.
  rewrite Henc, Hst, Hun. split; [|split].
  - split.
    + intros H0. apply length_zero_iff_nil in H0.
      rewrite H0, app_nil_r in Hsplit. exact Hsplit.
    + intros Heq. rewrite Heq at 1. now rewrite skipn_all.
  - intros ->. now rewrite skipn_nil.
  - intros H0 S. apply length_zero_iff_nil in H0. now rewrite H0.
Qed.

Lemma fixed_prefix_without_unstable_tail_witness :
  exists cache,
    FixedPrefixTokenCache.init DotEnc.enc (str "") = Ok cache /\
    FixedPrefixTokenCache.unstable_prefix_char_count cache = 0 /\
    FixedPrefixTokenCache.encode_ordinary_tail cache (str "hello") =
    Encoding.encode_ordinary DotEnc.enc (str "hello").
Proof.
  destruct (FixedPrefixTokenCache.init DotEnc.enc (str ""))
    as [cache|e] eqn:Hinit; [|discriminate Hinit].
  exists cache. split; [reflexivity|].
  destruct (fixed_prefix_without_unstable_tail DotEnc.enc (str "") cache Hinit)
    as (_ & Hempty & Htail).
  split; [apply Hempty; reflexivity|].
  apply Htail, Hempty. reflexivity.
Defined.

(** ** Append-only cache: what a run of appends keeps *)

Lemma reachable_append_step (encoding : Encoding.t) (k : Z) (c : Cache.t)
  (delta : text) :
  reachable encoding k c ->
  exists c' td,
    Cache.append_ordinary encoding c delta = Ok (c', td) /\
    reachable encoding k c' /\
    rollback_tokens td <= length (Cache._tokens c).
Proof.
  intros Hr.
  destruct (reachable_backtrack encoding k c Hr) as [Hk Hc].
  destruct (append_returns encoding c delta) as (c' & td & Happ); [lia|].
  exists c', td. split; [exact Happ|].
  split; [exact (@reach_append encoding k c delta c' td Hr Happ)|].
  destruct delta as [|a delta].
  - rewrite append_empty_delta in Happ. injection Happ as _ <-. simpl. lia.
  - destruct (append_shape encoding c c' (a :: delta) td) as (rs & Hcase & _);
      [lia | discriminate | exact Happ |].
    destruct Hcase as [(_ & _ & ->) | (_ & _ & ->)]; [lia|].
    destruct (reachable_P1_P4 encoding k c Hr) as [H1 _].
    unfold P1 in H1. rewrite H1, <- token_count_concat.
    apply token_count_skipn_le.
Qed.

(** X4. A run of appends that returns extends the text by exactly the
    concatenation of the deltas, returns one [TokenDelta] per delta, and
    leaves [backtrack_pieces] as it was - in every state, whatever the
    regex does. *)
Theorem appends_extend_text
  (encoding : Encoding.t) (deltas : list text) :
  forall (c c' : Cache.t) (tds : list TokenDelta),
    appends encoding c deltas = Ok (c', tds) ->
    Cache.text c' = Cache.text c ++ concat deltas /\
    Cache.backtrack_pieces c' = Cache.backtrack_pieces c /\
    length tds = length deltas.
Proof.
  unfold Cache.text, Cache.backtrack_pieces.
  induction deltas as [|d deltas IH]; intros c c' tds Happs.
  - injection Happs as <- <-. simpl. now rewrite app_nil_r.
  - cbn [appends] in Happs.
    destruct (Cache.append_ordinary encoding c d) as [[c1 td]|e] eqn:Happ;
      [|discriminate].
    destruct (appends encoding c1 deltas) as [[c2 tds']|e] eqn:Happs';
      [|discriminate].
    injection Happs as <- <-.
    destruct (append_keeps_text encoding c c1 d td Happ) as [Ht Hk].
    destruct (IH c1 c2 tds' Happs') as (Ht' & Hk' & Hl).
    cbn [concat length]. rewrite Ht', Ht, Hk', Hk, Hl, app_assoc. auto.
Qed.

Lemma appends_extend_text_witness :
  exists c' tds,
    appends AltEnc.enc (cold_state AltEnc.enc 1 (str "abc"))
      [str "d"; str ""; str "xab"] = Ok (c', tds) /\
    Cache.text c' = str "abcdxab" /\
    Cache.backtrack_pieces c' = 1%Z /\
    length tds = 3.
Proof.
  destruct (appends AltEnc.enc (cold_state AltEnc.enc 1 (str "abc"))
              [str "d"; str ""; str "xab"]) as [[c' tds]|e] eqn:Happs;
    [|discriminate Happs].
  exists c', tds. split; [reflexivity|].
  exact (appends_extend_text AltEnc.enc _ _ c' tds Happs).
Defined.

(** X5. Replaying the deltas returned by a run of appends, in order, on the
    token list the cache held before the run gives the token list it holds
    after the run - in every state and for every [backtrack_pieces]. *)
Theorem appends_replay
  (encoding : Encoding.t) (deltas : list text) :
  forall (c c' : Cache.t) (tds : list TokenDelta),
    appends encoding c deltas = Ok (c', tds) ->
    apply_deltas (Cache.tokens c) tds = Cache.tokens c'.
Proof.
  unfold Cache.tokens, apply_deltas.
  induction deltas as [|d deltas IH]; intros c c' tds Happs.
  - now injection Happs as <- <-.
  - cbn [appends] in Happs.
    destruct (Cache.append_ordinary encoding c d) as [[c1 td]|e] eqn:Happ;
      [|discriminate].
    destruct (appends encoding c1 deltas) as [[c2 tds']|e] eqn:Happs';
      [|discriminate].
    injection Happs as <- <-. cbn [fold_left].
    rewrite (append_delta_consistent _ _ _ _ _ Happ). now apply IH.
Qed.

Lemma appends_replay_witness :
  exists c' tds,
    appends AltEnc.enc (cold_state AltEnc.enc 2 (str "abc"))
      [str "d"; str "ab"; str "cd"] = Ok (c', tds) /\
    Cache.tokens c' = [97; 98; 99; 100; 256]%Z /\
    apply_deltas [97; 98; 99]%Z tds = Cache.tokens c'.
Proof.
  destruct (appends AltEnc.enc (cold_state AltEnc.enc 2 (str "abc"))
              [str "d"; str "ab"; str "cd"]) as [[c' tds]|e] eqn:Happs;
    [|discriminate Happs].
  exists c', tds. split; [reflexivity|].
  split; [injection Happs as <- _; reflexivity|].
  exact (appends_replay AltEnc.enc _ _ c' tds Happs).
Defined.

(** X6. Token balance of a run of appends on a cache: every call returns,
    and the number of tokens held at the end plus the rollbacks of the run
    equals the number held at the start plus the tokens appended by the
    run. *)
Theorem appends_token_balance
  (encoding : Encoding.t) (k : Z) (deltas : list text) :
  forall c,
    reachable encoding k c ->
    exists c' tds,
      appends encoding c deltas = Ok (c', tds) /\
      length (Cache.tokens c') + list_sum (map rollback_tokens tds) =
      length (Cache.tokens c)
      + list_sum (map (fun td => length (tokens_to_append td)) tds).
Proof.
  unfold Cache.tokens.
  induction deltas as [|d deltas IH]; intros c Hr.
  - exists c, []. split; reflexivity.
  - destruct (reachable_append_step encoding k c d Hr)
      as (c1 & td & Happ & Hr1 & Hle).
    destruct (IH c1 Hr1) as (c2 & tds & Happs & Hbal).
    exists c2, (td :: tds). cbn [appends]. rewrite Happ, Happs.
    split; [reflexivity|]. unfold list_sum in *. cbn [map fold_right].
    pose proof (append_delta_consistent _ _ _ _ _ Happ) as Hcons.
    apply (f_equal (@length token)) in Hcons.
    unfold apply_delta in Hcons.
    rewrite length_app, length_firstn in Hcons. lia.
Qed.

Lemma appends_token_balance_witness :
  exists c' tds,
    appends AltEnc.enc (cold_state AltEnc.enc 2 (str "abc"))
      [str "d"; str "ab"; str "cd"] = Ok (c', tds) /\
    length (Cache.tokens c') + list_sum (map rollback_tokens tds) =
    3 + list_sum (map (fun td => length (tokens_to_append td)) tds).
Proof.
  apply (appends_token_balance AltEnc.enc 2).
  apply (@reach_init AltEnc.enc 2 (str "abc")). reflexivity.
Defined.

(** ** Append-only cache: the branches of an append *)

(** X7. A non-empty append to a cache without pieces - whatever its text,
    for instance a text on which the regex matches nothing - leaves the state
    [reset(text ++ delta)] leaves, and returns the whole new token list as
    tokens to append.  The rollback is the number of tokens held, which is 0
    on every cache the public calls reach. *)
Theorem append_without_pieces
  (encoding : Encoding.t) (c : Cache.t) (delta : text) :
  delta <> [] ->
  Cache._pieces c = [] ->
  let c' := Cache.reset encoding c (Cache._text c ++ delta) in
  Cache.append_ordinary encoding c delta =
    Ok (c', {| rollback_tokens := length (Cache._tokens c);
               tokens_to_append := Cache._tokens c' |}) /\
  (forall k, reachable encoding k c -> length (Cache._tokens c) = 0).
Proof.
  intros Hd Hp c'. split.
  - subst c'. rewrite (append_cold encoding c delta Hd Hp), reset_eq.
    reflexivity.
  - intros k Hr. destruct (reachable_P1_P4 encoding k c Hr) as [H1 H4].
    unfold P1, P4 in *. rewrite Hp in H4. symmetry in H4.
    apply length_zero_iff_nil in H4. now rewrite H1, H4.
Qed.

Lemma append_without_pieces_witness :
  let c := cold_state AltEnc.enc 2 (str "xyz") in
  Cache._pieces c = [] /\
  Cache.append_ordinary AltEnc.enc c (str "ab") =
    Ok (cold_state AltEnc.enc 2 (str "xyzab"),
        {| rollback_tokens := 0; tokens_to_append := [97; 98]%Z |}).
Proof.
  intros c. split; [reflexivity|].
  destruct (append_without_pieces AltEnc.enc c (str "ab")) as [Happ _];
    [discriminate | reflexivity |].
  rewrite Happ. reflexivity.
Defined.

(** X8. When [backtrack_pieces] is at least the number of pieces, a
    non-empty append to a populated cache rolls back every token: the
    rollback is the number of tokens held, the tokens to append are the whole
    new token list, and the pieces are re-found from the start of the first
    piece. *)
Theorem append_rolls_back_everything
  (encoding : Encoding.t) (k : Z) (c : Cache.t) (delta : text) :
  reachable encoding k c ->
  delta <> [] ->
  Cache._pieces c <> [] ->
  (Z.of_nat (length (Cache._pieces c)) <= k)%Z ->
  exists c' td first_start,
    Cache.append_ordinary encoding c delta = Ok (c', td) /\
    rollback_tokens td = length (Cache._tokens c) /\
    tokens_to_append td = Cache._tokens c' /\
    option_map fst (nth_error (Cache._pieces c) 0) = Some first_start /\
    Cache._pieces c' =
      shift first_start
        (Encoding.finditer encoding
           (skipn first_start (Cache._text c ++ delta))).
Proof.
  intros Hr Hd Hne Hlen.
  destruct (reachable_backtrack encoding k c Hr) as [Hk Hc].
  destruct (reachable_P1_P4 encoding k c Hr) as [H1 _].
  destruct (append_returns encoding c delta) as (c' & td & Happ); [lia|].
  destruct (append_shape encoding c c' delta td) as (rs & Hcase & Hrest);
    [lia | exact Hd | exact Happ |].
  cbv zeta in Hcase, Hrest.
  replace (length (Cache._pieces c)
           - Z.to_nat (Z.min (Cache._backtrack_pieces c)
                         (Z.of_nat (length (Cache._pieces c)))))
    with 0 in * by lia.
  destruct Hcase as [(Hp & _) | ((e & Hnth) & _ & Hrb)]; [contradiction|].
  destruct Hrest as (_ & _ & Hps & _ & Htoks & Htd).
  exists c', td, rs. split; [exact Happ|].
  cbn [skipn firstn app] in *. unfold P1 in H1.
  rewrite token_count_concat, <- H1 in Hrb.
  rewrite Hrb, Nat.sub_diag in Htoks. cbn [firstn app] in Htoks.
  rewrite Hnth. repeat split; congruence.
Qed.

Lemma append_rolls_back_everything_witness :
  exists c' td,
    Cache.append_ordinary DotEnc.enc (cold_state DotEnc.enc 4 (str "foo"))
      (str "bar") = Ok (c', td) /\
    rollback_tokens td = 3 /\
    tokens_to_append td = Cache._tokens c'.
Proof.
  destruct (append_rolls_back_everything DotEnc.enc 4
              (cold_state DotEnc.enc 4 (str "foo")) (str "bar"))
    as (c' & td & s & Happ & Hrb & Htd & _).
  - apply (@reach_init DotEnc.enc 4 (str "foo")). reflexivity.
  - discriminate.
  - discriminate.
  - simpl. lia.
  - exists c', td. auto.
Defined.

(** X9. An append never touches what lies before the pieces it
    re-processes: the pieces and piece token lists before the last
    [min(backtrack_pieces, len(pieces))] ones, and the tokens before the
    rollback point, are the same after the call as before it. *)
Theorem append_keeps_head
  (encoding : Encoding.t) (k : Z) (c c' : Cache.t) (delta : text)
  (td : TokenDelta) :
  reachable encoding k c ->
  Cache.append_ordinary encoding c delta = Ok (c', td) ->
  let n := length (Cache._pieces c) in
  let keep := n - Z.to_nat (Z.min k (Z.of_nat n)) in
  let stay := length (Cache._tokens c) - rollback_tokens td in
  firstn keep (Cache._pieces c') = firstn keep (Cache._pieces c) /\
  firstn keep (Cache._piece_tokens c') = firstn keep (Cache._piece_tokens c) /\
  firstn stay (Cache._tokens c') = firstn stay (Cache._tokens c).
Proof.
  intros Hr Happ n keep stay.
  destruct (reachable_backtrack encoding k c Hr) as [Hk Hc].
  destruct (reachable_P1_P4 encoding k c Hr) as [_ H4]. unfold P4 in H4.
  destruct delta as [|a delta].
  - rewrite append_empty_delta in Happ. now injection Happ as <- _.
  - destruct (append_shape encoding c c' (a :: delta) td) as (rs & _ & Hrest);
      [lia | discriminate | exact Happ |].
    cbv zeta in Hrest. rewrite Hc in Hrest. fold n keep in Hrest.
    destruct Hrest as (_ & _ & -> & -> & -> & _). fold stay.
    assert (Hkeep : keep <= n) by (subst keep; lia).
    rewrite !firstn_app, !firstn_firstn, !length_firstn, !Nat.min_id.
    replace (keep - Nat.min keep (length (Cache._pieces c))) with 0
      by (fold n; lia).
    replace (keep - Nat.min keep (length (Cache._piece_tokens c))) with 0
      by (rewrite <- H4; fold n; lia).
    replace (stay - Nat.min stay (length (Cache._tokens c))) with 0
      by (subst stay; lia).
    cbn [firstn]. now rewrite !app_nil_r.
Qed.

Lemma append_keeps_head_witness :
  let c := cold_state AltEnc.enc 2 (str "abc") in
  exists c' td,
    Cache.append_ordinary AltEnc.enc c (str "d") = Ok (c', td) /\
    firstn 1 (Cache._pieces c') = [(0, 1)] /\
    firstn 1 (Cache._piece_tokens c') = [[97%Z]] /\
    firstn 1 (Cache._tokens c') = [97%Z].
Proof.
  intros c.
  destruct (Cache.append_ordinary AltEnc.enc c (str "d"))
    as [[c' td]|e] eqn:Happ; [|discriminate Happ].
  exists c', td. split; [reflexivity|].
  assert (Hr : reachable AltEnc.enc 2 c)
    by (apply (@reach_init AltEnc.enc 2 (str "abc")); reflexivity).
  pose proof (append_keeps_head AltEnc.enc 2 c c' (str "d") td Hr Happ) as H.
  injection Happ as <- <-. exact H.
Defined.

(** X10. When the regex finds no match in the re-processed tail of the
    grown text, a non-empty append to a populated cache appends no tokens
    and the cache shrinks: the last [min(backtrack_pieces, len(pieces))]
    pieces and their tokens are dropped and nothing replaces them. *)
Theorem append_without_match_shrinks
  (encoding : Encoding.t) (k : Z) (c : Cache.t) (delta : text) :
  reachable encoding k c ->
  delta <> [] ->
  Cache._pieces c <> [] ->
  let n := length (Cache._pieces c) in
  let keep := n - Z.to_nat (Z.min k (Z.of_nat n)) in
  (forall rs e,
     nth_error (Cache._pieces c) keep = Some (rs, e) ->
     Encoding.finditer encoding (skipn rs (Cache._text c ++ delta)) = []) ->
  exists c' td,
    Cache.append_ordinary encoding c delta = Ok (c', td) /\
    tokens_to_append td = [] /\
    Cache._pieces c' = firstn keep (Cache._pieces c) /\
    Cache._piece_tokens c' = firstn keep (Cache._piece_tokens c) /\
    Cache._tokens c' =
      firstn (length (Cache._tokens c) - rollback_tokens td) (Cache._tokens c).
Proof.
  intros Hr Hd Hne n keep Hnone.
  destruct (reachable_backtrack encoding k c Hr) as [Hk Hc].
  destruct (append_returns encoding c delta) as (c' & td & Happ); [lia|].
  destruct (append_shape encoding c c' delta td) as (rs & Hcase & Hrest);
    [lia | exact Hd | exact Happ |].
  cbv zeta in Hcase, Hrest. rewrite Hc in Hcase, Hrest.
  fold n keep in Hcase, Hrest.
  destruct Hcase as [(Hp & _) | ((e & Hnth) & _)]; [contradiction|].
  rewrite (Hnone rs e Hnth) in Hrest. cbn in Hrest.
  rewrite !app_nil_r in Hrest.
  exists c', td. tauto.
Qed.

Lemma append_without_match_shrinks_witness :
  let c := cold_state AheadEnc.enc 1 (str "a") in
  Cache._pieces c = [(0, 1)] /\
  exists c' td,
    Cache.append_ordinary AheadEnc.enc c (str "b") = Ok (c', td) /\
    tokens_to_append td = [] /\
    Cache._pieces c' = [] /\ Cache._piece_tokens c' = [] /\
    Cache._tokens c' = [].
Proof.
  intros c. split; [reflexivity|].
  destruct (append_without_match_shrinks AheadEnc.enc 1 c (str "b"))
    as (c' & td & Happ & Htd & Hps & Hpts & Htoks).
  - apply (@reach_init AheadEnc.enc 1 (str "a")). reflexivity.
  - discriminate.
  - discriminate.
  - intros rs e [= <- <-]. reflexivity.
  - exists c', td. split; [exact Happ|]. split; [exact Htd|].
    split; [exact Hps|]. split; [exact Hpts|].
    assert (Hq : Cache.append_ordinary AheadEnc.enc c (str "b") =
                 Ok ({| Cache._backtrack_pieces := 1;
                        Cache._text := str "ab";
                        Cache._pieces := [];
                        Cache._piece_tokens := [];
                        Cache._tokens := [] |},
                     {| rollback_tokens := 1; tokens_to_append := [] |}))
      by reflexivity.
    rewrite Happ in Hq. now injection Hq as -> _.
Defined.

(** X11. The tokens a non-empty append returns are the cold tokenization
    of the tail it re-processes: the text from the start of the first of the
    last [min(backtrack_pieces, len(pieces))] pieces to the end of the grown
    text (the whole grown text when the cache has no pieces) - provided the
    encoder keeps its piece contract. *)
Theorem tokens_to_append_is_cold_tail
  (encoding : Encoding.t) (k : Z) (c : Cache.t) (delta : text) :
  piece_contract encoding ->
  reachable encoding k c ->
  delta <> [] ->
  let n := length (Cache._pieces c) in
  let keep := n - Z.to_nat (Z.min k (Z.of_nat n)) in
  let reprocess_start :=
    match nth_error (Cache._pieces c) keep with
    | Some (start, _) => start
    | None => 0
    end in
  exists c' td,
    Cache.append_ordinary encoding c delta = Ok (c', td) /\
    tokens_to_append td =
      Encoding.encode_ordinary encoding
        (skipn reprocess_start (Cache._text c ++ delta)).
Proof.
  intros Hcontract Hr Hd n keep reprocess_start.
  destruct (reachable_backtrack encoding k c Hr) as [Hk Hc].
  destruct (append_returns encoding c delta) as (c' & td & Happ); [lia|].
  destruct (append_shape encoding c c' delta td) as (rs & Hcase & Hrest);
    [lia | exact Hd | exact Happ |].
  cbv zeta in Hcase, Hrest. rewrite Hc in Hcase, Hrest.
  fold n keep in Hcase, Hrest.
  destruct Hrest as (_ & _ & _ & _ & _ & Htd).
  exists c', td. split; [exact Happ|].
  assert (Hrs : reprocess_start = rs).
  { subst reprocess_start.
    destruct Hcase as [(Hp & -> & _) | ((e & Hnth) & _)].
    - rewrite Hp. now destruct keep.
    - now rewrite Hnth. }
  rewrite Hrs, Htd, Hcontract. reflexivity.
Qed.

Lemma tokens_to_append_is_cold_tail_witness :
  exists c' td,
    Cache.append_ordinary AltEnc.enc (cold_state AltEnc.enc 2 (str "xabc"))
      (str "d") = Ok (c', td) /\
    tokens_to_append td = Encoding.encode_ordinary AltEnc.enc (str "bcd").
Proof.
  destruct (tokens_to_append_is_cold_tail AltEnc.enc 2
              (cold_state AltEnc.enc 2 (str "xabc")) (str "d"))
    as (c' & td & Happ & Htd).
  - exact alt_piece_contract.
  - apply (@reach_init AltEnc.enc 2 (str "xabc")). reflexivity.
  - discriminate.
  - exists c', td. split; [exact Happ | exact Htd].
Defined.

(** ** Append-only cache: the stored pieces *)

Lemma ordered_from_weaken (ms : list span) (lo lo' : nat) :
  lo' <= lo -> ordered_from lo ms -> ordered_from lo' ms.
Proof.
  destruct ms as [|m ms]; [easy|]. cbn. intros Hle (H1 & H2 & H3).
  repeat split; [lia | exact H2 | exact H3].
Qed.

Lemma ordered_from_shift (offset : nat) (ms : list span) :
  forall lo, ordered_from lo ms -> ordered_from (offset + lo) (shift offset ms).
Proof.
  induction ms as [|m ms IH]; intros lo; [easy|].
  cbn. intros (H1 & H2 & H3). repeat split; [lia | lia | now apply IH].
Qed.

(** In an ordered list, everything before the piece at index [i] ends at
    or before the start of that piece. *)
Lemma ordered_from_nth (ms : list span) :
  forall lo i rs e,
    ordered_from lo ms ->
    nth_error ms i = Some (rs, e) ->
    ordered_from lo (firstn i ms) /\
    Forall (fun m => snd m <= rs) (firstn i ms) /\
    lo <= rs /\ rs <= e.
Proof.
  induction ms as [|m ms IH]; intros lo i rs e Hord Hnth.
  - destruct i; discriminate.
  - cbn in Hord. destruct Hord as (H1 & H2 & H3). destruct i as [|i].
    + injection Hnth as ->. cbn. auto.
    + cbn in Hnth. destruct (IH (snd m) i rs e H3 Hnth) as (Ho & Hf & Hlo & He).
      cbn. split; [split; [exact H1 | split; [exact H2 | exact Ho]]|].
      split; [constructor; [lia | exact Hf] | split; lia].
Qed.

Lemma ordered_from_app (l1 l2 : list span) (hi : nat) :
  forall lo,
    ordered_from lo l1 ->
    Forall (fun m => snd m <= hi) l1 ->
    lo <= hi ->
    ordered_from hi l2 ->
    ordered_from lo (l1 ++ l2).
Proof.
  induction l1 as [|m l1 IH]; intros lo Hord Hall Hle H2.
  - now apply (ordered_from_weaken l2 hi).
  - cbn in Hord |- *. destruct Hord as (H1 & H3 & H4).
    inversion Hall as [|? ? Hm Hall']; subst.
    repeat split; auto.
Qed.

Lemma encode_matches_grow (encoding : Encoding.t) (txt delta : text)
  (ms : list span) :
  Forall (fun m => snd m <= length txt) ms ->
  encode_matches encoding (txt ++ delta) ms = encode_matches encoding txt ms.
Proof.
  intros Hall. unfold encode_matches. apply map_ext_in.
  intros m Hm. rewrite group0_app; [reflexivity|].
  rewrite Forall_forall in Hall. now apply Hall.
Qed.

Lemma Forall_firstn {A : Type} (P : A -> Prop) (i : nat) (l : list A) :
  Forall P l -> Forall P (firstn i l).
Proof.
  rewrite !Forall_forall. intros H x Hx. apply H.
  rewrite <- (firstn_skipn i l). apply in_or_app. now left.
Qed.

Lemma cold_state_pieces_ok (encoding : Encoding.t) (k : Z) (txt : text) :
  matches_ordered encoding ->
  pieces_ok (cold_state encoding k txt) /\
  piece_tokens_ok encoding (cold_state encoding k txt).
Proof.
  intros Hord. split; [exact (Hord txt) | reflexivity].
Qed.

Lemma append_pieces_ok (encoding : Encoding.t) (c c' : Cache.t)
  (delta : text) (td : TokenDelta) :
  matches_ordered encoding ->
  (1 <= Cache._backtrack_pieces c)%Z ->
  pieces_ok c -> piece_tokens_ok encoding c ->
  Cache.append_ordinary encoding c delta = Ok (c', td) ->
  pieces_ok c' /\ piece_tokens_ok encoding c'.
Proof.
  intros Hreg Hk [Hord Hin] Hpt Happ.
  destruct delta as [|a delta].
  { rewrite append_empty_delta in Happ. injection Happ as <- _.
    split; [split|]; assumption. }
  destruct (append_shape encoding c c' (a :: delta) td) as (rs & Hcase & Hrest);
    [exact Hk | discriminate | exact Happ |].
  cbv zeta in Hcase, Hrest.
  set (keep := length (Cache._pieces c)
               - Z.to_nat (Z.min (Cache._backtrack_pieces c)
                             (Z.of_nat (length (Cache._pieces c))))) in *.
  set (text' := Cache._text c ++ a :: delta) in *.
  destruct Hrest as (_ & Ht & Hps & Hpts & _).
  destruct (Hreg (skipn rs text')) as [Hms Hms_in].
  assert (Hhead : ordered_from 0 (firstn keep (Cache._pieces c)) /\
                  Forall (fun m => snd m <= rs) (firstn keep (Cache._pieces c)) /\
                  rs <= length text').
  { destruct Hcase as [(Hp & -> & _) | ((e & Hnth) & _)].
    - rewrite Hp, firstn_nil. repeat split; [constructor | lia].
    - destruct (ordered_from_nth _ 0 keep rs e Hord Hnth)
        as (Ho & Hf & _ & Hrs).
      repeat split; auto.
      apply nth_error_In in Hnth. rewrite Forall_forall in Hin.
      apply Hin in Hnth. cbn in Hnth. subst text'.
      rewrite length_app. lia. }
  destruct Hhead as (Ho & Hf & Hrs).
  unfold pieces_ok, piece_tokens_ok. rewrite Ht, Hps, Hpts. split; [split|].
  - apply (ordered_from_app _ _ rs); auto; [lia|].
    replace rs with (rs + 0) at 1 by lia. now apply ordered_from_shift.
  - apply Forall_app. split.
    + eapply Forall_impl; [|apply (Forall_firstn _ keep _ Hin)].
      cbn. intros m Hm. subst text'. rewrite length_app. lia.
    + unfold shift. rewrite Forall_map. eapply Forall_impl; [|exact Hms_in].
      cbn. intros m Hm. rewrite length_skipn in Hm. lia.
  - rewrite encode_matches_app, encode_matches_shift. f_equal.
    subst text'. rewrite encode_matches_grow by now apply Forall_firstn.
    unfold piece_tokens_ok in Hpt. rewrite Hpt.
    unfold encode_matches. now rewrite firstn_map.
Qed.

Lemma reachable_pieces_ok (encoding : Encoding.t) (k : Z) (c : Cache.t) :
  matches_ordered encoding ->
  reachable encoding k c ->
  pieces_ok c /\ piece_tokens_ok encoding c.
Proof.
  intros Hreg Hr.
  induction Hr as [txt c Hinit | c txt _ _ | c delta c' td Hr IH Happ].
  - apply init_inv in Hinit as [_ ->]. rewrite reset_cold_state.
    now apply cold_state_pieces_ok.
  - rewrite reset_cold_state. now apply cold_state_pieces_ok.
  - destruct (reachable_backtrack encoding k c Hr) as [Hk Hc].
    destruct IH as [Hp Hpt].
    apply (append_pieces_ok encoding c c' delta td); auto. lia.
Qed.

Lemma alt_scan_ordered (alts : list text) (txt : text) :
  forall skip pos, ordered_from (pos + skip) (AltEnc.scan alts skip pos txt).
Proof.
  induction txt as [|ch r IH]; intros skip pos; [exact I|].
  cbn [AltEnc.scan]. destruct skip as [|n].
  - destruct (AltEnc.match_alts alts (ch :: r)) as [|n].
    + apply (ordered_from_weaken _ (S pos + 0)); [lia | apply IH].
    + cbn. repeat split; [lia | lia |].
      replace (pos + S n) with (S pos + n) by lia. apply IH.
  - replace (pos + S n) with (S pos + n) by lia. apply IH.
Qed.

Lemma alt_matches_ordered : matches_ordered AltEnc.enc.
Proof.
  intros txt. split.
  - apply (alt_scan_ordered AltEnc.alts txt 0 0).
  - apply Forall_forall. intros m Hm. now apply alt_matches_in_range.
Qed.

(** X12. After every public call, for every [backtrack_pieces] and whether
    or not the segmentation agrees with a cold run: the stored pieces are
    listed from left to right, do not overlap, and lie inside the stored
    text - provided the regex engine returns its matches that way. *)
Theorem pieces_ordered_after_every_call
  (encoding : Encoding.t) (k : Z) (c : Cache.t) :
  matches_ordered encoding ->
  reachable encoding k c ->
  ordered_from 0 (Cache._pieces c) /\
  Forall (fun p => fst p <= snd p /\ snd p <= length (Cache._text c))
         (Cache._pieces c).
Proof.
  intros Hreg Hr.
  destruct (reachable_pieces_ok encoding k c Hreg Hr) as [[Hord Hin] _].
  split; [exact Hord|].
  apply Forall_forall. intros p Hp. split.
  - destruct (In_nth_error _ _ Hp) as [i Hi]. destruct p as [s e].
    now destruct (ordered_from_nth _ 0 i s e Hord Hi) as (_ & _ & _ & H).
  - rewrite Forall_forall in Hin. now apply Hin.
Qed.

Lemma pieces_ordered_after_every_call_witness :
  let c1 := {| Cache._backtrack_pieces := 2;
               Cache._text := str "abcd";
               Cache._pieces := [(0, 1); (1, 2); (2, 3); (3, 4)];
               Cache._piece_tokens := [[97]; [98]; [99]; [100]]%Z;
               Cache._tokens := [97; 98; 99; 100]%Z |} in
  Cache._pieces c1 <> Encoding.finditer AltEnc.enc (Cache._text c1) /\
  ordered_from 0 (Cache._pieces c1) /\
  Forall (fun p => fst p <= snd p /\ snd p <= 4) (Cache._pieces c1).
Proof.
  intros c1. split; [discriminate|].
  apply (pieces_ordered_after_every_call AltEnc.enc 2 c1 alt_matches_ordered).
  apply (@reach_append AltEnc.enc 2 (cold_state AltEnc.enc 2 (str "abc"))
           (str "d") c1
           {| rollback_tokens := 2; tokens_to_append := [98; 99; 100]%Z |}).
  - apply (@reach_init AltEnc.enc 2 (str "abc")). reflexivity.
  - reflexivity.
Defined.

(** X13. After every public call, for every [backtrack_pieces] and whether
    or not the segmentation agrees with a cold run: [piece_tokens[i]] is
    [encode_single_piece] of the stored text between the offsets of
    [pieces[i]], so the token list is the concatenation of the encodings of
    the stored pieces - provided the regex engine returns ordered matches
    inside the searched string. *)
Theorem piece_tokens_encode_pieces_after_every_call
  (encoding : Encoding.t) (k : Z) (c : Cache.t) :
  matches_ordered encoding ->
  reachable encoding k c ->
  Cache._piece_tokens c =
    map (fun p => Encoding._encode_single_piece encoding
                    (Py.group0 (Cache._text c) p))
        (Cache._pieces c) /\
  Cache._tokens c =
    concat (map (fun p => Encoding._encode_single_piece encoding
                            (Py.group0 (Cache._text c) p))
                (Cache._pieces c)).
Proof.
  intros Hreg Hr.
  destruct (reachable_pieces_ok encoding k c Hreg Hr) as [_ Hpt].
  destruct (reachable_P1_P4 encoding k c Hr) as [H1 _].
  unfold piece_tokens_ok, encode_matches, P1 in *.
  split; [exact Hpt | now rewrite H1, Hpt].
Qed.

Lemma piece_tokens_encode_pieces_after_every_call_witness :
  let c1 := {| Cache._backtrack_pieces := 2;
               Cache._text := str "abcd";
               Cache._pieces := [(0, 1); (1, 2); (2, 3); (3, 4)];
               Cache._piece_tokens := [[97]; [98]; [99]; [100]]%Z;
               Cache._tokens := [97; 98; 99; 100]%Z |} in
  Cache._tokens c1 <> Encoding.encode_ordinary AltEnc.enc (Cache._text c1) /\
  Cache._tokens c1 =
    concat (map (fun p => Encoding._encode_single_piece AltEnc.enc
                            (Py.group0 (Cache._text c1) p))
                (Cache._pieces c1)).
Proof.
  intros c1. split; [vm_compute; discriminate|].
  apply (piece_tokens_encode_pieces_after_every_call AltEnc.enc 2 c1
           alt_matches_ordered).
  apply (@reach_append AltEnc.enc 2 (cold_state AltEnc.enc 2 (str "abc"))
           (str "d") c1
           {| rollback_tokens := 2; tokens_to_append := [98; 99; 100]%Z |}).
  - apply (@reach_init AltEnc.enc 2 (str "abc")). reflexivity.
  - reflexivity.
Defined.

(** X14. Under the backtrack assumption, the cache built incrementally is
    the cache a cold construction over the final text gives, field by field
    (text, pieces, piece_tokens, tokens): for every initial text and every
    sequence of deltas, constructing from the initial text and appending the
    deltas ends in the state that constructing from the whole text gives,
    and [reset] to its own text changes nothing. *)
Theorem incremental_state_is_cold_state
  (encoding : Encoding.t) (k : Z) (initial_text : text) (deltas : list text) :
  matches_in_range encoding ->
  backtrack_assumption encoding k ->
  (1 <= k)%Z ->
  exists c0 c tds,
    Cache.init encoding initial_text k = Ok c0 /\
    appends encoding c0 deltas = Ok (c, tds) /\
    Cache.init encoding (initial_text ++ concat deltas) k = Ok c /\
    Cache.reset encoding c (Cache._text c) = c.
Proof.
  intros Hrange Hback Hk.
  destruct (appends_cold_state encoding k Hrange Hback deltas Hk initial_text)
    as (tds & Happs & _).
  exists (cold_state encoding k initial_text),
         (cold_state encoding k (initial_text ++ concat deltas)), tds.
  split; [now apply init_cold_state|]. split; [exact Happs|].
  split; [now apply init_cold_state|].
  now rewrite reset_cold_state.
Qed.

Lemma incremental_state_is_cold_state_witness :
  exists c0 c tds,
    Cache.init DotEnc.enc (str "foo") 2 = Ok c0 /\
    appends DotEnc.enc c0 [str "bar"; str " baz"] = Ok (c, tds) /\
    Cache.init DotEnc.enc (str "foo" ++ concat [str "bar"; str " baz"]) 2
      = Ok c /\
    Cache.reset DotEnc.enc c (Cache._text c) = c.
Proof.
  apply (incremental_state_is_cold_state DotEnc.enc 2).
  - exact dot_matches_in_range.
  - exact (dot_backtrack 2).
  - lia.
Defined.

(** ** The verification mode of the benchmark *)

Section VerifyFixedFacts.

Variable enc : Encoding.t.
Variable cs : VerifyFixed.Case.
Variable prefix : text.
Variable cache : FixedPrefixTokenCache.t.

Local Abbreviation bad := (VerifyFixed.disagrees enc prefix cache).
Local Abbreviation recorded := (VerifyFixed.records enc prefix cache).

Lemma verify_fixed_loop_body (m : nat) (exs : list VerifyFixed.Example)
  (idx : nat) (suf : text) :
  VerifyFixed.loop_body enc cs prefix cache (m, exs) (idx, suf) =
  if bad suf then
    (m + 1,
     if length exs <? 5
     then exs ++ [ {| VerifyFixed.i := idx;
                      VerifyFixed.ex_prefix_chars :=
                        VerifyFixed.prefix_chars cs;
                      VerifyFixed.ex_suffix_chars :=
                        VerifyFixed.suffix_chars cs;
                      VerifyFixed.len_a :=
                        length (Encoding.encode_ordinary enc (prefix ++ suf));
                      VerifyFixed.len_b :=
                        length (FixedPrefixTokenCache.encode_ordinary
                                  cache suf);
                      VerifyFixed.suffix_preview := firstn 120 suf |} ]
     else exs)
  else (m, exs).
Proof. reflexivity. Qed.

Lemma verify_fixed_loop (all : list text) (l : list text) :
  forall start m exs,
    (forall j suf, nth_error l j = Some suf ->
                   nth_error all (start + j) = Some suf) ->
    Forall (recorded all) exs ->
    exists m' exs',
      fold_left (VerifyFixed.loop_body enc cs prefix cache)
                (combine (seq start (length l)) l) (m, exs) = (m', exs') /\
      m' = m + length (filter bad l) /\
      length exs' = Nat.max (length exs)
                      (Nat.min 5 (length exs + length (filter bad l))) /\
      Forall (recorded all) exs'.
Proof.
  induction l as [|suf l IH]; intros start m exs Hnth Hrec.
  - exists m, exs. cbn [length seq combine fold_left filter].
    repeat split; [lia | lia | exact Hrec].
  - cbn [length seq combine fold_left filter].
    assert (Hnth' : forall j s, nth_error l j = Some s ->
                                nth_error all (S start + j) = Some s).
    { intros j s Hj. specialize (Hnth (S j) s Hj).
      now replace (S start + j) with (start + S j) by lia. }
    rewrite verify_fixed_loop_body.
    destruct (bad suf) eqn:Hbad.
    + destruct (Nat.ltb_spec (length exs) 5) as [Hlt|Hge].
      * match goal with
        | |- context [fold_left _ _ (?m1, ?e1)] =>
            destruct (IH (S start) m1 e1 Hnth')
              as (m' & exs' & Hfold & Hm & Hl & Hr)
        end.
        { apply Forall_app. split; [exact Hrec|]. constructor; [|constructor].
          exists suf. cbn. repeat split; auto.
          specialize (Hnth 0 suf eq_refl).
          now rewrite Nat.add_0_r in Hnth. }
        exists m', exs'. rewrite length_app in Hl. cbn [length] in *.
        repeat split; [exact Hfold | lia | lia | exact Hr].
      * destruct (IH (S start) (m + 1) exs Hnth' Hrec)
          as (m' & exs' & Hfold & Hm & Hl & Hr).
        exists m', exs'. cbn [length].
        repeat split; [exact Hfold | lia | lia | exact Hr].
    + destruct (IH (S start) m exs Hnth' Hrec)
        as (m' & exs' & Hfold & Hm & Hl & Hr).
      exists m', exs'. repeat split; [exact Hfold | lia | lia | exact Hr].
Qed.

Lemma filter_bad_nil (l : list text) :
  length (filter bad l) = 0 <->
  forall suf, In suf l ->
    FixedPrefixTokenCache.encode_ordinary cache suf =
    Encoding.encode_ordinary enc (prefix ++ suf).
Proof.
  induction l as [|s l IH]; cbn [filter].
  - split; [intros _ suf [] | reflexivity].
  - destruct (bad s) eqn:Hb; cbn [length].
    + split; [discriminate|]. intros H. exfalso.
      apply tokens_differ_true in Hb. apply Hb. symmetry. apply H. now left.
    + rewrite IH. apply tokens_differ_false in Hb. split.
      * intros H suf [<- | Hin]; [now symmetry | now apply H].
      * intros H suf Hin. apply H. now right.
Qed.

End VerifyFixedFacts.

(** X15. When [verify_fixed_prefix_case] returns, its mismatch count is
    the number of generated suffixes on which the cache and the cold
    tokenization of [prefix + suffix] differ: it is 0 exactly when the cache
    agrees with the cold run on every suffix.  It keeps the first
    [min(5, mismatches)] mismatches as examples, each describing a suffix
    that disagrees, and it reports the counts of the cache it built. *)
Theorem verify_fixed_prefix_case_exact
  (w : Workloads.t) (enc : Encoding.t) (cs : VerifyFixed.Case)
  (v : VerifyFixed.Verdict) :
  VerifyFixed.verify_fixed_prefix_case w enc cs = Ok v ->
  let prefix :=
    Workloads.make_text w (VerifyFixed.prefix_chars cs) (VerifyFixed.seed cs)
      (VerifyFixed.domain cs) (str "SYSTEM:") in
  let suffixes :=
    Workloads.make_suffixes w (VerifyFixed.n cs) (VerifyFixed.suffix_chars cs)
      (VerifyFixed.seed cs + 1) (VerifyFixed.domain cs) in
  exists cache,
    FixedPrefixTokenCache.init enc prefix = Ok cache /\
    VerifyFixed.verify_mismatches v =
      length (filter (VerifyFixed.disagrees enc prefix cache) suffixes) /\
    (VerifyFixed.verify_mismatches v = 0 <->
     forall suf, In suf suffixes ->
       FixedPrefixTokenCache.encode_ordinary cache suf =
       Encoding.encode_ordinary enc (prefix ++ suf)) /\
    length (VerifyFixed.verify_examples v) =
      Nat.min 5 (VerifyFixed.verify_mismatches v) /\
    Forall (VerifyFixed.records enc prefix cache suffixes)
           (VerifyFixed.verify_examples v) /\
    VerifyFixed.stable_prefix_tokens v =
      FixedPrefixTokenCache.stable_prefix_token_count cache /\
    VerifyFixed.unstable_prefix_chars v =
      FixedPrefixTokenCache.unstable_prefix_char_count cache.
Proof.
  intros Hv prefix suffixes.
  unfold VerifyFixed.verify_fixed_prefix_case in Hv.
  fold prefix suffixes in Hv.
  destruct (FixedPrefixTokenCache.init enc prefix) as [cache|e] eqn:Hinit;
    [|discriminate].
  exists cache. split; [reflexivity|].
  destruct (verify_fixed_loop enc cs prefix cache suffixes suffixes 0 0 [])
    as (m' & exs' & Hfold & Hm & Hl & Hr);
    [intros j suf Hj; exact Hj | constructor |].
  rewrite Hfold in Hv. injection Hv as <-.
  cbn [VerifyFixed.verify_mismatches VerifyFixed.verify_examples
       VerifyFixed.stable_prefix_tokens VerifyFixed.unstable_prefix_chars].
  cbn [length] in Hl. cbn [Nat.add] in Hm, Hl.
  split; [exact Hm|]. split.
  - rewrite Hm. apply filter_bad_nil.
  - split; [rewrite Hl, Hm; lia|]. split; [exact Hr|]. split; reflexivity.
Qed.

Lemma verify_fixed_prefix_case_exact_witness :
  let cs := {| VerifyFixed.domain := Workloads.english;
               VerifyFixed.prefix_chars := 2;
               VerifyFixed.suffix_chars := 1;
               VerifyFixed.n := 3;
               VerifyFixed.seed := 0 |} in
  let w := {| Workloads.make_text := fun _ _ _ _ => str "ab";
              Workloads.make_suffixes :=
                fun _ _ _ _ => [str "c"; str "x"; str "c"];
              Workloads.make_chat_deltas := fun _ _ _ _ => [] |} in
  exists v,
    VerifyFixed.verify_fixed_prefix_case w LookbehindEnc.enc cs = Ok v /\
    VerifyFixed.verify_mismatches v = 2 /\
    map VerifyFixed.i (VerifyFixed.verify_examples v) = [0; 2] /\
    length (VerifyFixed.verify_examples v) =
      Nat.min 5 (VerifyFixed.verify_mismatches v).
Proof.
  intros cs w.
  destruct (VerifyFixed.verify_fixed_prefix_case w LookbehindEnc.enc cs)
    as [v|e] eqn:Hv; [|discriminate Hv].
  exists v. split; [reflexivity|].
  destruct (verify_fixed_prefix_case_exact w LookbehindEnc.enc cs v Hv)
    as (cache & _ & _ & _ & Hlen & _).
  split; [injection Hv as <-; reflexivity|].
  split; [injection Hv as <-; reflexivity | exact Hlen].
Defined.

(** X16. When the encoder keeps the stable-split guarantee,
    [verify_fixed_prefix_case] reports no mismatch and no example whenever
    it returns, and it returns unless the construction of the cache raises
    the stable-split mismatch error. *)
Theorem verify_fixed_prefix_case_passes
  (w : Workloads.t) (enc : Encoding.t) (cs : VerifyFixed.Case) :
  stable_split_guarantee enc ->
  (exists v,
     VerifyFixed.verify_fixed_prefix_case w enc cs = Ok v /\
     VerifyFixed.verify_mismatches v = 0 /\
     VerifyFixed.verify_examples v = []) \/
  VerifyFixed.verify_fixed_prefix_case w enc cs = Raise StableSplitMismatch.
Proof.
  intros Hg. unfold VerifyFixed.verify_fixed_prefix_case.
  set (prefix := Workloads.make_text w _ _ _ _).
  set (suffixes := Workloads.make_suffixes w _ _ _ _).
  destruct (FixedPrefixTokenCache.init enc prefix) as [cache|e] eqn:Hinit.
  - left.
    destruct (verify_fixed_loop enc cs prefix cache suffixes suffixes 0 0 [])
      as (m' & exs' & Hfold & Hm & Hl & _);
      [intros j suf Hj; exact Hj | constructor |].
    rewrite Hfold. eexists. split; [reflexivity|].
    cbn [VerifyFixed.verify_mismatches VerifyFixed.verify_examples].
    assert (H0 : length (filter (VerifyFixed.disagrees enc prefix cache)
                           suffixes) = 0).
    { apply filter_bad_nil. intros suf _.
      unfold FixedPrefixTokenCache.encode_ordinary.
      symmetry. now apply fixed_prefix_cold_split. }
    rewrite H0 in Hm, Hl. cbn in Hm, Hl.
    split; [exact Hm | now apply length_zero_iff_nil].
  - right. f_equal.
    unfold FixedPrefixTokenCache.init in Hinit.
    destruct (stable_split_for_text enc prefix) as [sp|e'] eqn:Hsp;
      [discriminate|].
    injection Hinit as <-. unfold stable_split_for_text in Hsp.
    destruct (Encoding.encode_with_unstable enc prefix) as [st comps].
    destruct (negb _); [now injection Hsp as <- | discriminate].
Qed.

Lemma verify_fixed_prefix_case_passes_witness :
  let cs := {| VerifyFixed.domain := Workloads.english;
               VerifyFixed.prefix_chars := 12;
               VerifyFixed.suffix_chars := 9;
               VerifyFixed.n := 4;
               VerifyFixed.seed := 7 |} in
  exists v,
    VerifyFixed.verify_fixed_prefix_case ToyWorkloads.w DotEnc.enc cs = Ok v /\
    VerifyFixed.verify_mismatches v = 0 /\
    VerifyFixed.verify_examples v = [] /\
    VerifyFixed.stable_prefix_tokens v = 11.
Proof.
  intros cs.
  destruct (verify_fixed_prefix_case_passes ToyWorkloads.w DotEnc.enc cs
              dot_stable_split_guarantee) as [(v & Hv & Hm & He) | Hraise].
  - exists v. split; [exact Hv|]. split; [exact Hm|]. split; [exact He|].
    assert (Hc : exists v', VerifyFixed.verify_fixed_prefix_case
                              ToyWorkloads.w DotEnc.enc cs = Ok v' /\
                            VerifyFixed.stable_prefix_tokens v' = 11)
      by (eexists; split; reflexivity).
    destruct Hc as (v' & Hv' & H11). rewrite Hv in Hv'.
    now injection Hv' as ->.
  - discriminate Hraise.
Defined.

(** [agrees_each_turn] says that after each delta of the run the tokens
    are the cold tokenization of the text so far. *)
Lemma agrees_each_turn_prefixes (encoding : Encoding.t) (deltas : list text) :
  forall c txt,
    agrees_each_turn encoding c txt deltas <->
    forall n, 1 <= n <= length deltas ->
      exists c' tds,
        appends encoding c (firstn n deltas) = Ok (c', tds) /\
        Cache._tokens c' =
          Encoding.encode_ordinary encoding
            (txt ++ concat (firstn n deltas)).
Proof.
  induction deltas as [|d deltas IH]; intros c txt.
  - cbn. split; [intros _ n Hn; lia | auto].
  - cbn [agrees_each_turn]. split.
    + destruct (Cache.append_ordinary encoding c d) as [[c1 td]|e] eqn:Happ;
        [|intros []].
      intros [Htok Hrest] n Hn. destruct n as [|[|n]]; [lia | |].
      * exists c1, [td]. cbn [firstn appends concat]. rewrite Happ.
        now rewrite !app_nil_r.
      * destruct (proj1 (IH c1 (txt ++ d)) Hrest (S n))
          as (c' & tds & Happs & Htok'); [cbn [length] in Hn; lia|].
        exists c', (td :: tds).
        change (firstn (S (S n)) (d :: deltas))
          with (d :: firstn (S n) deltas).
        cbn [appends concat]. rewrite Happ, Happs, app_assoc. auto.
    + intros H.
      destruct (H 1) as (c1 & tds & Happs & Htok); [cbn [length]; lia|].
      cbn [firstn appends concat] in Happs, Htok.
      destruct (Cache.append_ordinary encoding c d) as [[c1' td]|e] eqn:Happ;
        [|discriminate].
      injection Happs as -> _. rewrite app_nil_r in Htok.
      split; [exact Htok|]. apply IH. intros n Hn.
      destruct (H (S n)) as (c' & tds' & Happs' & Htok');
        [cbn [length]; lia|].
      change (firstn (S n) (d :: deltas)) with (d :: firstn n deltas)
        in Happs', Htok'.
      cbn [appends concat] in Happs', Htok'. rewrite Happ in Happs'.
      destruct (appends encoding c1 (firstn n deltas)) as [[c2 tds2]|e];
        [|discriminate].
      injection Happs' as <- _. exists c2, tds2.
      rewrite app_assoc in Htok'. auto.
Qed.

Lemma list_max_le_sum (l : list nat) : list_max l <= list_sum l.
Proof.
  unfold list_max, list_sum.
  induction l as [|a l IH]; [reflexivity|].
  cbn [fold_right]. lia.
Qed.

(** The loop of [verify_append_only_case], from locals [st] on. *)
Lemma verify_append_loop (encoding : Encoding.t) (deltas : list text) :
  forall st idx,
    (1 <= Cache._backtrack_pieces (VerifyAppend.cache st))%Z ->
    exists st' tds,
      VerifyAppend.loop encoding st idx deltas = Ok st' /\
      appends encoding (VerifyAppend.cache st) deltas
        = Ok (VerifyAppend.cache st', tds) /\
      VerifyAppend.cur_text st' = VerifyAppend.cur_text st ++ concat deltas /\
      VerifyAppend.rollback_total st' =
        VerifyAppend.rollback_total st + list_sum (map rollback_tokens tds) /\
      VerifyAppend.rollback_max st' =
        Nat.max (VerifyAppend.rollback_max st)
                (list_max (map rollback_tokens tds)) /\
      VerifyAppend.mismatches st <= VerifyAppend.mismatches st'
        <= VerifyAppend.mismatches st + length deltas /\
      (VerifyAppend.mismatches st' = VerifyAppend.mismatches st <->
       agrees_each_turn encoding (VerifyAppend.cache st)
         (VerifyAppend.cur_text st) deltas) /\
      length (VerifyAppend.examples st') =
        Nat.max (length (VerifyAppend.examples st))
          (Nat.min 3 (length (VerifyAppend.examples st)
                      + (VerifyAppend.mismatches st'
                         - VerifyAppend.mismatches st))).
Proof.
  induction deltas as [|d deltas IH]; intros st idx Hk.
  - exists st, []. cbn [VerifyAppend.loop appends concat map list_sum
                        list_max fold_right length agrees_each_turn].
    rewrite app_nil_r. repeat split; auto; lia.
  - cbn [VerifyAppend.loop appends agrees_each_turn].
    destruct (append_returns encoding (VerifyAppend.cache st) d Hk)
      as (c1 & td & Happ).
    rewrite Happ.
    destruct (append_keeps_text encoding _ c1 d td Happ) as [_ Hk1].
    set (differ := tokens_differ
                     (Encoding.encode_ordinary encoding
                        (VerifyAppend.cur_text st ++ d))
                     (Cache.tokens c1)).
    destruct differ eqn:Hdiff; subst differ.
    + match goal with
      | |- context [VerifyAppend.loop encoding ?s ?i deltas] =>
          destruct (IH s i) as (st' & tds & Hloop & Happs & Ht & Hs & Hmx
                                & Hm & Hagree & Hex)
      end; [cbn; lia|].
      cbn [VerifyAppend.cache VerifyAppend.cur_text VerifyAppend.mismatches
           VerifyAppend.examples VerifyAppend.rollback_max
           VerifyAppend.rollback_total] in *.
      exists st', (td :: tds). rewrite Hloop, Happs.
      cbn [map list_sum list_max fold_right concat length].
      apply tokens_differ_true in Hdiff. unfold Cache.tokens in Hdiff.
      split; [reflexivity|]. split; [reflexivity|].
      split; [now rewrite Ht, app_assoc|].
      split; [unfold list_sum in Hs; lia|].
      split; [unfold list_max in Hmx; lia|].
      split; [lia|]. split.
      * split; [lia|]. intros [Heq _]. congruence.
      * destruct (Nat.ltb_spec (length (VerifyAppend.examples st)) 3);
          [rewrite length_app in Hex; cbn [length] in Hex|]; lia.
    + match goal with
      | |- context [VerifyAppend.loop encoding ?s ?i deltas] =>
          destruct (IH s i) as (st' & tds & Hloop & Happs & Ht & Hs & Hmx
                                & Hm & Hagree & Hex)
      end; [cbn; lia|].
      cbn [VerifyAppend.cache VerifyAppend.cur_text VerifyAppend.mismatches
           VerifyAppend.examples VerifyAppend.rollback_max
           VerifyAppend.rollback_total] in *.
      exists st', (td :: tds). rewrite Hloop, Happs.
      cbn [map list_sum list_max fold_right concat length].
      apply tokens_differ_false in Hdiff. unfold Cache.tokens in Hdiff.
      split; [reflexivity|]. split; [reflexivity|].
      split; [now rewrite Ht, app_assoc|].
      split; [unfold list_sum in Hs; lia|].
      split; [unfold list_max in Hmx; lia|].
      split; [lia|]. split; [|exact Hex].
      rewrite Hagree. split; [intros H; split; [congruence | exact H]|].
      now intros [_ H].
Qed.

(** What [verify_append_only_case] returns, in terms of its loop. *)
Lemma verify_append_only_case_run
  (w : Workloads.t) (enc : Encoding.t) (cs : VerifyAppend.Case) :
  (1 <= VerifyAppend.backtrack_pieces cs)%Z ->
  let initial :=
    Workloads.make_text w (VerifyAppend.initial_chars cs)
      (VerifyAppend.seed cs) (VerifyAppend.domain cs) (str "SYSTEM:") in
  let deltas :=
    Workloads.make_chat_deltas w (VerifyAppend.turns cs)
      (VerifyAppend.chars_per_turn cs) (VerifyAppend.seed cs + 1)
      (VerifyAppend.domain cs) in
  let c0 := cold_state enc (VerifyAppend.backtrack_pieces cs) initial in
  exists v c tds,
    VerifyAppend.verify_append_only_case w enc cs = Ok v /\
    Cache.init enc initial (VerifyAppend.backtrack_pieces cs) = Ok c0 /\
    appends enc c0 deltas = Ok (c, tds) /\
    VerifyAppend.rollback_tokens_total v = list_sum (map rollback_tokens tds) /\
    VerifyAppend.rollback_tokens_max v = list_max (map rollback_tokens tds) /\
    VerifyAppend.verify_mismatches v <= length deltas /\
    (VerifyAppend.verify_mismatches v = 0 <->
     agrees_each_turn enc c0 initial deltas) /\
    length (VerifyAppend.verify_examples v) =
      Nat.min 3 (VerifyAppend.verify_mismatches v).
Proof.
  intros Hk initial deltas c0.
  unfold VerifyAppend.verify_append_only_case. fold initial deltas.
  rewrite (init_cold_state enc _ initial Hk). fold c0.
  match goal with
  | |- context [VerifyAppend.loop enc ?s 0 deltas] =>
      destruct (verify_append_loop enc deltas s 0)
        as (st' & tds & Hloop & Happs & _ & Hs & Hmx & Hm & Hagree & Hex)
  end; [exact Hk|].
  cbn [VerifyAppend.cache VerifyAppend.cur_text VerifyAppend.mismatches
       VerifyAppend.examples VerifyAppend.rollback_max
       VerifyAppend.rollback_total] in *.
  rewrite Hloop. eexists. exists (VerifyAppend.cache st'), tds.
  split; [reflexivity|]. split; [reflexivity|]. split; [exact Happs|].
  cbn [VerifyAppend.verify_mismatches VerifyAppend.verify_examples
       VerifyAppend.rollback_tokens_total VerifyAppend.rollback_tokens_max].
  cbn [length] in Hex.
  repeat split; try tauto; lia.
Qed.

(** X17. [verify_append_only_case] raises the invalid-argument error when
    [backtrack_pieces < 1] and returns otherwise.  Its mismatch count is at
    most the number of turns, and it is 0 exactly when, after every turn, the
    tokens of the cache equal the cold tokenization of the initial text
    followed by the deltas appended so far.  It keeps the first
    [min(3, mismatches)] mismatches as examples. *)
Theorem verify_append_only_case_exact
  (w : Workloads.t) (enc : Encoding.t) (cs : VerifyAppend.Case) :
  let k := VerifyAppend.backtrack_pieces cs in
  let initial :=
    Workloads.make_text w (VerifyAppend.initial_chars cs)
      (VerifyAppend.seed cs) (VerifyAppend.domain cs) (str "SYSTEM:") in
  let deltas :=
    Workloads.make_chat_deltas w (VerifyAppend.turns cs)
      (VerifyAppend.chars_per_turn cs) (VerifyAppend.seed cs + 1)
      (VerifyAppend.domain cs) in
  ((k < 1)%Z ->
   VerifyAppend.verify_append_only_case w enc cs = Raise InvalidArgument) /\
  ((1 <= k)%Z ->
   exists v c0,
     VerifyAppend.verify_append_only_case w enc cs = Ok v /\
     Cache.init enc initial k = Ok c0 /\
     VerifyAppend.verify_mismatches v <= length deltas /\
     length (VerifyAppend.verify_examples v) =
       Nat.min 3 (VerifyAppend.verify_mismatches v) /\
     (VerifyAppend.verify_mismatches v = 0 <->
      forall n, 1 <= n <= length deltas ->
        exists c tds,
          appends enc c0 (firstn n deltas) = Ok (c, tds) /\
          Cache.tokens c =
            Encoding.encode_ordinary enc
              (initial ++ concat (firstn n deltas)))).
Proof.
  intros k initial deltas. split.
  - intros Hk. unfold VerifyAppend.verify_append_only_case, Cache.init.
    fold k. destruct (Z.ltb_spec k 1); [reflexivity | lia].
  - intros Hk.
    destruct (verify_append_only_case_run w enc cs Hk)
      as (v & c & tds & Hv & Hinit & _ & _ & _ & Hle & Hzero & Hex).
    exists v, (cold_state enc k initial).
    split; [exact Hv|]. split; [exact Hinit|]. split; [exact Hle|].
    split; [exact Hex|]. rewrite Hzero.
    apply agrees_each_turn_prefixes.
Qed.

Lemma verify_append_only_case_exact_witness :
  let cs := {| VerifyAppend.domain := Workloads.english;
               VerifyAppend.initial_chars := 3;
               VerifyAppend.turns := 2;
               VerifyAppend.chars_per_turn := 1;
               VerifyAppend.backtrack_pieces := 2;
               VerifyAppend.seed := 0 |} in
  let w := {| Workloads.make_text := fun _ _ _ _ => str "abc";
              Workloads.make_suffixes := fun _ _ _ _ => [];
              Workloads.make_chat_deltas :=
                fun _ _ _ _ => [str "d"; str "a"] |} in
  exists v,
    VerifyAppend.verify_append_only_case w AltEnc.enc cs = Ok v /\
    VerifyAppend.verify_mismatches v = 2 /\
    length (VerifyAppend.verify_examples v) = 2 /\
    VerifyAppend.verify_append_only_case w AltEnc.enc
      {| VerifyAppend.domain := Workloads.english;
         VerifyAppend.initial_chars := 3;
         VerifyAppend.turns := 2;
         VerifyAppend.chars_per_turn := 1;
         VerifyAppend.backtrack_pieces := 0;
         VerifyAppend.seed := 0 |} = Raise InvalidArgument.
Proof.
  intros cs w.
  destruct (proj2 (verify_append_only_case_exact w AltEnc.enc cs))
    as (v & c0 & Hv & _ & _ & Hex & _); [cbn; lia|].
  exists v. split; [exact Hv|].
  assert (Hm : VerifyAppend.verify_mismatches v = 2).
  { assert (Hc : exists v', VerifyAppend.verify_append_only_case
                              w AltEnc.enc cs = Ok v' /\
                            VerifyAppend.verify_mismatches v' = 2)
      by (eexists; split; reflexivity).
    destruct Hc as (v' & Hv' & H2). rewrite Hv in Hv'.
    now injection Hv' as ->. }
  split; [exact Hm|]. split; [rewrite Hex, Hm; reflexivity|].
  apply (proj1 (verify_append_only_case_exact w AltEnc.enc _)). cbn. lia.
Defined.

(** X18. The rollback statistics [verify_append_only_case] reports are
    those of the run of appends it makes: the total is the sum and the
    maximum is the largest of the rollbacks returned by the appends (0 when
    there is no turn), so the maximum never exceeds the total. *)
Theorem verify_append_only_case_rollback_stats
  (w : Workloads.t) (enc : Encoding.t) (cs : VerifyAppend.Case) :
  let k := VerifyAppend.backtrack_pieces cs in
  let initial :=
    Workloads.make_text w (VerifyAppend.initial_chars cs)
      (VerifyAppend.seed cs) (VerifyAppend.domain cs) (str "SYSTEM:") in
  let deltas :=
    Workloads.make_chat_deltas w (VerifyAppend.turns cs)
      (VerifyAppend.chars_per_turn cs) (VerifyAppend.seed cs + 1)
      (VerifyAppend.domain cs) in
  (1 <= k)%Z ->
  exists v c0 c tds,
    VerifyAppend.verify_append_only_case w enc cs = Ok v /\
    Cache.init enc initial k = Ok c0 /\
    appends enc c0 deltas = Ok (c, tds) /\
    VerifyAppend.rollback_tokens_total v = list_sum (map rollback_tokens tds) /\
    VerifyAppend.rollback_tokens_max v = list_max (map rollback_tokens tds) /\
    VerifyAppend.rollback_tokens_max v <= VerifyAppend.rollback_tokens_total v.
Proof.
  intros k initial deltas Hk.
  destruct (verify_append_only_case_run w enc cs Hk)
    as (v & c & tds & Hv & Hinit & Happs & Hs & Hmx & _).
  exists v, (cold_state enc k initial), c, tds.
  split; [exact Hv|]. split; [exact Hinit|]. split; [exact Happs|].
  split; [exact Hs|]. split; [exact Hmx|].
  rewrite Hs, Hmx. apply list_max_le_sum.
Qed.

Lemma verify_append_only_case_rollback_stats_witness :
  let cs := {| VerifyAppend.domain := Workloads.english;
               VerifyAppend.initial_chars := 3;
               VerifyAppend.turns := 2;
               VerifyAppend.chars_per_turn := 1;
               VerifyAppend.backtrack_pieces := 2;
               VerifyAppend.seed := 0 |} in
  let w := {| Workloads.make_text := fun _ _ _ _ => str "abc";
              Workloads.make_suffixes := fun _ _ _ _ => [];
              Workloads.make_chat_deltas :=
                fun _ _ _ _ => [str "d"; str "a"] |} in
  exists v,
    VerifyAppend.verify_append_only_case w AltEnc.enc cs = Ok v /\
    VerifyAppend.rollback_tokens_total v = 4 /\
    VerifyAppend.rollback_tokens_max v = 2 /\
    VerifyAppend.rollback_tokens_max v <= VerifyAppend.rollback_tokens_total v.
Proof.
  intros cs w.
  destruct (verify_append_only_case_rollback_stats w AltEnc.enc cs)
    as (v & c0 & c & tds & Hv & _ & _ & _ & _ & Hle); [cbn; lia|].
  exists v. split; [exact Hv|].
  assert (Hc : exists v', VerifyAppend.verify_append_only_case
                            w AltEnc.enc cs = Ok v' /\
                          VerifyAppend.rollback_tokens_total v' = 4 /\
                          VerifyAppend.rollback_tokens_max v' = 2)
    by (eexists; repeat split; reflexivity).
  destruct Hc as (v' & Hv' & H4 & H2). rewrite Hv in Hv'.
  injection Hv' as ->. auto.
Defined.

(** Under the backtrack assumption the cache agrees with a cold
    tokenization after every turn. *)
Lemma cold_state_agrees_each_turn (encoding : Encoding.t) (k : Z)
  (deltas : list text) :
  piece_contract encoding ->
  matches_in_range encoding ->
  backtrack_assumption encoding k ->
  (1 <= k)%Z ->
  forall txt,
    agrees_each_turn encoding (cold_state encoding k txt) txt deltas.
Proof.
  intros Hcontract Hrange Hback Hk.
  induction deltas as [|d deltas IH]; intros txt; [exact I|].
  cbn [agrees_each_turn].
  destruct (append_cold_state encoding k Hrange Hback txt d Hk) as [td Happ].
  rewrite Happ. split; [now apply cold_tokens | apply IH].
Qed.

(** X19. When the backtrack assumption holds for the [backtrack_pieces] of
    the case (and the encoder keeps its piece contract),
    [verify_append_only_case] returns and reports no mismatch and no
    example. *)
Theorem verify_append_only_case_passes
  (w : Workloads.t) (enc : Encoding.t) (cs : VerifyAppend.Case) :
  piece_contract enc ->
  matches_in_range enc ->
  backtrack_assumption enc (VerifyAppend.backtrack_pieces cs) ->
  (1 <= VerifyAppend.backtrack_pieces cs)%Z ->
  exists v,
    VerifyAppend.verify_append_only_case w enc cs = Ok v /\
    VerifyAppend.verify_mismatches v = 0 /\
    VerifyAppend.verify_examples v = [].
Proof.
  intros Hcontract Hrange Hback Hk.
  destruct (verify_append_only_case_run w enc cs Hk)
    as (v & c & tds & Hv & _ & _ & _ & _ & _ & Hzero & Hex).
  exists v. split; [exact Hv|].
  assert (H0 : VerifyAppend.verify_mismatches v = 0)
    by (apply Hzero; now apply cold_state_agrees_each_turn).
  split; [exact H0|]. rewrite H0 in Hex. now apply length_zero_iff_nil.
Qed.

Lemma verify_append_only_case_passes_witness :
  let cs := {| VerifyAppend.domain := Workloads.mixed;
               VerifyAppend.initial_chars := 10;
               VerifyAppend.turns := 3;
               VerifyAppend.chars_per_turn := 8;
               VerifyAppend.backtrack_pieces := 2;
               VerifyAppend.seed := 5 |} in
  exists v,
    VerifyAppend.verify_append_only_case ToyWorkloads.w DotEnc.enc cs = Ok v /\
    VerifyAppend.verify_mismatches v = 0 /\
    VerifyAppend.verify_examples v = [].
Proof.
  intros cs.
  apply (verify_append_only_case_passes ToyWorkloads.w DotEnc.enc cs).
  - exact dot_piece_contract.
  - exact dot_matches_in_range.
  - exact (dot_backtrack 2).
  - cbn. lia.
Defined.
